(** * Conformal and empirical prediction intervals (sktime.forecasting.conformal)

    A shallow embedding of [ConformalIntervals] and a verification of the
    properties its specification states.

    Conventions of the embedding.
    - A Python float is an exact rational ([Q]); a float that may be NaN is
      [option Q] with [None] for NaN.  Rounding of the floating point
      operations is not modelled.
    - A time index is a list of integer labels ([Z]); a [pd.Series] is the list
      of its (label, value) pairs in index order.
    - Code that raises returns [Raise e]; [warn] appends to a log.  A computation
      is a pair of the warnings it emitted and its result. *)

From Stdlib Require Import String.
From Stdlib Require Import List ZArith QArith Qround Qabs Bool Lia Lqa.
From Stdlib Require Import Sorted Permutation.
Import ListNotations.

Set Implicit Arguments.

Local Open Scope Z_scope.

(** ** Exceptions, results, warnings *)

Inductive exn : Type :=
| TypeError
| ValueError
| IndexError
| KeyError
| AttributeError
| UnboundLocalError
| ForecasterFailure.

Inductive result (A : Type) : Type :=
| Ok (a : A)
| Raise (e : exn).

Arguments Ok {A} a.
Arguments Raise {A} e.

Definition is_ok {A} (r : result A) : bool :=
  match r with Ok _ => true | Raise _ => false end.

(** The text of a warning is not modelled, only what it reports. *)
Inductive warning : Type :=
| CouldNotPredict (len_y_train : nat).

(** A computation: the warnings emitted so far, and the value or the exception. *)
Definition M (A : Type) : Type := (list warning * result A)%type.

Definition ret {A} (a : A) : M A := ([], Ok a).
Definition raise {A} (e : exn) : M A := ([], Raise e).
Definition warn (w : warning) : M unit := ([w], Ok tt).
Definition lift {A} (r : result A) : M A := ([], r).

Definition bind {A B} (m : M A) (k : A -> M B) : M B :=
  match m with
  | (ws, Ok a) => let (ws', r) := k a in (ws ++ ws', r)
  | (ws, Raise e) => (ws, Raise e)
  end.

Declare Scope comp_scope.
Delimit Scope comp_scope with comp.
Notation "x <- m ;; k" := (bind m (fun x => k))
  (at level 61, m at next level, right associativity) : comp_scope.
Notation "m ;;; k" := (bind m (fun _ => k))
  (at level 61, right associativity) : comp_scope.

(** ** Python values that reach the constructor *)

(** [initial_window] as the caller may pass it.  [WOther] stands for every
    value whose [np.asarray(_).dtype.kind] is neither ["i"] nor ["f"]
    (strings, booleans, unsigned numpy integers, containers, ...). *)
Inductive window_spec : Type :=
| WNone
| WInt (z : Z)
| WFloat (q : Q)
| WOther.

Inductive dtype_kind : Type := kind_i | kind_f | kind_O.

Definition dtype_kind_eqb (a b : dtype_kind) : bool :=
  match a, b with
  | kind_i, kind_i | kind_f, kind_f | kind_O, kind_O => true
  | _, _ => false
  end.

(** [np.asarray(initial_window).dtype.kind] *)
Definition asarray_dtype_kind (w : window_spec) : dtype_kind :=
  match w with
  | WInt _ => kind_i
  | WFloat _ => kind_f
  | WNone | WOther => kind_O
  end.

Definition Qltb (a b : Q) : bool := negb (Qle_bool b a).

(** Comparisons of the (numeric) window with an integer bound. *)
Definition window_ge (w : window_spec) (b : Z) : bool :=
  match w with
  | WInt z => b <=? z
  | WFloat q => Qle_bool (inject_Z b) q
  | _ => false
  end.

Definition window_le (w : window_spec) (b : Z) : bool :=
  match w with
  | WInt z => z <=? b
  | WFloat q => Qle_bool q (inject_Z b)
  | _ => false
  end.

Definition is_None (w : window_spec) : bool :=
  match w with WNone => true | _ => false end.

(** ** Series and exogenous data *)

Definition Series : Type := list (Z * Q).
Definition Index : Type := list Z.

Definition series_index (y : Series) : Index := map fst y.

(** Exogenous data is handed to the forecaster untouched; [None] when absent. *)
Definition Exog : Type := option (list (Z * list Q)).

(** ** Window parser *)

(** [ConformalIntervals._parse_initial_window].  [0.1 * n_samples] is the
    rational [n_samples / 10]. *)
Definition _parse_initial_window (y : Series) (initial_window : window_spec)
  : result Z :=
  let n_samples := Z.of_nat (length y) in
  let initial_window :=
    if is_None initial_window
    then WInt (Z.max 10 (Qfloor ((1 # 10) * inject_Z n_samples)))
    else initial_window in
  let initial_window_type := asarray_dtype_kind initial_window in
  if (dtype_kind_eqb initial_window_type kind_i
      && (window_ge initial_window n_samples || window_le initial_window 0))
     || (dtype_kind_eqb initial_window_type kind_f
         && (window_le initial_window 0 || window_ge initial_window 1))
  then Raise ValueError
  else if negb (is_None initial_window)
          && negb (dtype_kind_eqb initial_window_type kind_i
                   || dtype_kind_eqb initial_window_type kind_f)
  then Raise ValueError
  else
    match initial_window with
    | WFloat q => Ok (Qfloor (q * inject_Z n_samples))
    | WInt z => Ok z
    | _ => Raise UnboundLocalError
    end.

(** The window rule in the words of the specification (section 4.1), with the
    case of a missing window restricted to series longer than ten points. *)
Definition window_rule (n : Z) (w_spec : window_spec) : result Z :=
  match w_spec with
  | WNone =>
      if 10 <? n then Ok (Z.max 10 (n / 10)) else Raise ValueError
  | WInt z =>
      if (0 <? z) && (z <? n) then Ok z else Raise ValueError
  | WFloat q =>
      if Qltb 0 q && Qltb q 1 then Ok (Qfloor (q * inject_Z n))
      else Raise ValueError
  | WOther => Raise ValueError
  end.


(** A series of [n] points labelled [0 .. n-1] with values [0 .. n-1]. *)
Definition ramp (n : nat) : Series :=
  map (fun k => (Z.of_nat k, inject_Z (Z.of_nat k))) (seq 0 n).

(** ** Floats with NaN, and the numpy operations the wrapper uses *)

Local Open Scope Q_scope.

(** A float that may be NaN. *)
Definition float : Type := option Q.
Definition NaN : float := None.

Definition float_add (a b : float) : float :=
  match a, b with Some x, Some y => Some (x + y) | _, _ => NaN end.

Definition float_mul (a b : float) : float :=
  match a, b with Some x, Some y => Some (x * y) | _, _ => NaN end.

(** [a[~np.isnan(a)]] *)
Fixpoint dropna (a : list float) : list Q :=
  match a with
  | [] => []
  | Some x :: r => x :: dropna r
  | None :: r => dropna r
  end.

(** [np.abs] *)
Definition np_abs (a : list Q) : list Q := map Qabs a.

(** [np.repeat(a, 2)]: every element twice, in place. *)
Fixpoint np_repeat2 (a : list Q) : list Q :=
  match a with
  | [] => []
  | x :: r => x :: x :: np_repeat2 r
  end.

(** [np.tile(a, reps)]: the whole array [reps] times. *)
Fixpoint np_tile (a : list Q) (reps : nat) : list Q :=
  match reps with
  | O => []
  | S k => a ++ np_tile a k
  end.

(** Elementwise product of two arrays of one shape. *)
Fixpoint np_mul (a b : list Q) : list Q :=
  match a, b with
  | x :: a', y :: b' => x * y :: np_mul a' b'
  | _, _ => []
  end.

(** The diagonal that starts at row 0 and column [col]. *)
Fixpoint diag_from (rows : list (list float)) (col : nat) : list float :=
  match rows with
  | [] => []
  | r :: rs =>
      match nth_error r col with
      | Some v => v :: diag_from rs (S col)
      | None => []
      end
  end.

(** [np.diagonal(m, offset)]: entries [m[i][i+offset]]; a negative offset
    starts [-offset] rows down. *)
Definition np_diagonal (m : list (list float)) (offset : Z) : list float :=
  if (0 <=? offset)%Z
  then diag_from m (Z.to_nat offset)
  else diag_from (skipn (Z.to_nat (- offset)) m) 0.

(** Insertion sort, ascending: the order statistics of a sample. *)
Fixpoint insert_sorted (x : Q) (l : list Q) : list Q :=
  match l with
  | [] => [x]
  | y :: r => if Qle_bool x y then x :: l else y :: insert_sorted x r
  end.

Fixpoint np_sort (l : list Q) : list Q :=
  match l with
  | [] => []
  | x :: r => insert_sorted x (np_sort r)
  end.

(** The quantile of an ascending, non-empty sample at probability [p], by
    linear interpolation between the two nearest order statistics (numpy's
    default): the virtual index is [(n-1) p], its neighbours are
    [floor] and [floor + 1] (kept inside the sample). *)
Definition quantile_sorted (a : list Q) (p : Q) : Q :=
  let n := length a in
  let virtual_index := inject_Z (Z.of_nat (n - 1)) * p in
  let previous := Z.to_nat (Qfloor virtual_index) in
  let next := Nat.min (S previous) (n - 1) in
  let gamma := virtual_index - inject_Z (Qfloor virtual_index) in
  let lo := nth previous a 0 in
  let hi := nth next a 0 in
  lo + gamma * (hi - lo).

Definition quantile_is_valid (q : list Q) : bool :=
  forallb (fun p => Qle_bool 0 p && Qle_bool p 1) q.

(** [np.quantile(a, q)] on a one-dimensional sample without NaN: probabilities
    outside [0, 1] are rejected first; an empty sample has NaN for every
    quantile. *)
Definition np_quantile (a : list Q) (q : list Q) : result (list float) :=
  if negb (quantile_is_valid q) then Raise ValueError
  else
    match a with
    | [] => Ok (map (fun _ => NaN) q)
    | _ => Ok (map (fun p => Some (quantile_sorted (np_sort a) p)) q)
    end.

(** ** Data frames *)

Local Open Scope Z_scope.

Record DataFrame : Type := mkDataFrame {
  df_index : Index;
  df_columns : Index;
  df_values : list (list float)
}.

Definition mem (l : Z) (ix : Index) : bool := existsb (Z.eqb l) ix.

(** [pd.DataFrame(columns=cols, index=idx, dtype="float")]: all NaN. *)
Definition empty_frame (idx cols : Index) : DataFrame :=
  mkDataFrame idx cols (map (fun _ => map (fun _ => NaN) cols) idx).

(** Value of a series at a label, NaN where the label is absent. *)
Fixpoint series_at (s : Series) (l : Z) : float :=
  match s with
  | [] => NaN
  | (k, v) :: r => if k =? l then Some v else series_at r l
  end.

(** A series aligned to the columns of a frame. *)
Definition align_row (cols : Index) (s : Series) : list float :=
  map (series_at s) cols.

Fixpoint set_rows (idx : Index) (vals : list (list float)) (id : Z)
  (row : list float) : list (list float) :=
  match idx, vals with
  | l :: idx', r :: vals' =>
      (if l =? id then row else r) :: set_rows idx' vals' id row
  | _, _ => []
  end.

(** [df.loc[id] = s]: the row labelled [id] becomes [s] aligned to the
    columns; a label that is not in the index appends a row. *)
Definition loc_set_row (df : DataFrame) (id : Z) (s : Series) : DataFrame :=
  let row := align_row (df_columns df) s in
  if mem id (df_index df)
  then mkDataFrame (df_index df) (df_columns df)
         (set_rows (df_index df) (df_values df) id row)
  else mkDataFrame (df_index df ++ [id]) (df_columns df)
         (df_values df ++ [row]).

Fixpoint position (l : Z) (ix : Index) : option nat :=
  match ix with
  | [] => None
  | k :: r => if k =? l then Some O else option_map S (position l r)
  end.

(** [df.loc[r, c]], NaN outside the frame. *)
Definition df_at (df : DataFrame) (r c : Z) : float :=
  match position r (df_index df), position c (df_columns df) with
  | Some i, Some j => nth j (nth i (df_values df) []) NaN
  | _, _ => NaN
  end.

(** [df.loc[old.index, old.columns] = old]: every label must exist in [df]
    (pandas raises [KeyError] for a list of labels with a missing one); the
    cells named by [old] take its values. *)
Definition loc_set_block (df old : DataFrame) : result DataFrame :=
  if forallb (fun l => mem l (df_index df)) (df_index old)
     && forallb (fun l => mem l (df_columns df)) (df_columns old)
  then
    Ok (mkDataFrame (df_index df) (df_columns df)
          (map (fun '(r, row) =>
                  map (fun '(c, v) =>
                         if mem r (df_index old) && mem c (df_columns old)
                         then df_at old r c else v)
                      (combine (df_columns df) row))
               (combine (df_index df) (df_values df))))
  else Raise KeyError.

(** [ix.difference(other)] on an increasing index. *)
Definition index_difference (ix other : Index) : Index :=
  filter (fun l => negb (mem l other)) ix.

(** [ix.max()]; an empty index has no maximum (NaN). *)
Definition index_max (ix : Index) : option Z :=
  match ix with
  | [] => None
  | l :: r => Some (fold_left Z.max r l)
  end.

(** [a < b] on two maxima; a comparison with NaN is false. *)
Definition max_lt (a b : option Z) : bool :=
  match a, b with
  | Some x, Some y => x <? y
  | _, _ => false
  end.

(** [y.iloc[n:]] *)
Definition iloc_from {A} (y : list A) (n : Z) : list A :=
  if n <? 0 then skipn (Z.to_nat (Z.of_nat (length y) + n)) y
  else skipn (Z.to_nat n) y.

(** ** Slicing and horizons (collaborators of the wrapper) *)

(** Modelled from the spec: [sktime.datatypes._utilities.get_slice] is not
    among the sources; section 4.2 gives [y_train = y[:i]], [y_test = y[i:]]:
    the entries whose label is at least [start] and below [end]. *)
Definition get_slice {A} (obj : list (Z * A)) (start end_ : option Z)
  : list (Z * A) :=
  filter (fun e =>
            match start with Some s => s <=? fst e | None => true end
            && match end_ with Some t => fst e <? t | None => true end)
         obj.

Definition get_slice_X (X : Exog) (start end_ : option Z) : Exog :=
  option_map (fun x => get_slice x start end_) X.

(** A forecasting horizon: steps relative to the cutoff, or absolute labels. *)
Inductive ForecastingHorizon : Type :=
| Relative (steps : list Z)
| Absolute (labels : list Z).

Definition fh_len (fh : ForecastingHorizon) : nat :=
  match fh with Relative l | Absolute l => length l end.

(** Modelled from the spec: [ForecastingHorizon.to_relative] and
    [to_absolute] are not among the sources; section 4.4 resolves [fh]
    against the cutoff into relative offsets and absolute index positions. *)
Definition to_relative (fh : ForecastingHorizon) (cutoff : Z) : list Z :=
  match fh with
  | Relative s => s
  | Absolute l => map (fun a => a - cutoff) l
  end.

Definition to_absolute (fh : ForecastingHorizon) (cutoff : Z) : list Z :=
  match fh with
  | Relative s => map (fun r => cutoff + r) s
  | Absolute l => l
  end.

(** [method] as the caller may pass it. *)
Inductive method_arg : Type :=
| MStr (s : string)
| MNotStr.

Definition ALLOWED_METHODS : list string :=
  ["empirical"; "empirical_residual"; "conformal"; "conformal_bonferroni"]%string.

(** [if sample_frac:] -- [None], [0] and [0.0] are falsy. *)
Definition truthy (sample_frac : option Q) : bool :=
  match sample_frac with
  | None => false
  | Some q => negb (Qeq_bool q 0)
  end.

(** [Parallel(n_jobs)(tasks)]: the results in the order of the tasks; the first
    exception ends the run.  joblib rejects [n_jobs = 0]. *)
Fixpoint run_tasks {A} (tasks : list (M A)) : M (list A) :=
  match tasks with
  | [] => ret []
  | t :: ts => (a <- t ;; r <- run_tasks ts ;; ret (a :: r))%comp
  end.

Definition Parallel {A} (n_jobs : option Z) (tasks : list (M A)) : M (list A) :=
  match n_jobs with
  | Some 0 => raise ValueError
  | _ => run_tasks tasks
  end.

(** ** The wrapper *)

Section ConformalIntervals.

(** The wrapped point forecaster (section 6): an estimator object, fitted or
    not, with the operations the wrapper calls on it. *)
Variable estimator : Type.
Variable clone : estimator -> estimator.
Variable est_fit :
  estimator -> Series -> Exog -> option ForecastingHorizon -> result estimator.
Variable est_predict_residuals :
  estimator -> Series -> Exog -> result Series.
(** one real value per horizon entry *)
Variable est_predict : estimator -> Exog -> Z -> Q.
Variable est_update :
  estimator -> Series -> Exog -> bool -> result estimator.

(** numpy's global random state, and [Series.sample(frac=...)] without
    [random_state], which draws from it. *)
Variable RandomState : Type.
Variable pd_sample : RandomState -> Q -> Index -> result Index.

Record Wrapper : Type := mkWrapper {
  forecaster : estimator;
  method : string;
  verbose : bool;
  initial_window : window_spec;
  sample_frac : option Q;
  n_jobs : option Z;
  (* set by fit *)
  fh_early_ : option bool;
  forecaster_ : option estimator;
  residuals_matrix_ : option DataFrame;
  (* kept by the base class *)
  _y : Series;
  _X : Exog;
  cutoff : Z
}.

(** An attribute that may not be set yet. *)
Definition getattr {A} (a : option A) : result A :=
  match a with Some v => Ok v | None => Raise AttributeError end.

(** [ConformalIntervals.__init__] *)
Definition __init__ (forecaster : estimator) (method : method_arg)
  (initial_window : window_spec) (sample_frac : option Q) (verbose : bool)
  (n_jobs : option Z) : result Wrapper :=
  match method with
  | MNotStr => Raise TypeError
  | MStr method =>
      if negb (existsb (String.eqb method) ALLOWED_METHODS)
      then Raise ValueError
      else Ok (mkWrapper forecaster method verbose initial_window sample_frac
                 n_jobs None None None [] None 0)
  end.

(** The worker of [_compute_sliding_residuals].  After an [IndexError] the
    local [residuals] was never bound, and [return residuals] raises. *)
Definition _get_residuals_matrix_row (forecaster : estimator) (y : Series)
  (X : Exog) (id : Z) : M Series :=
  let y_train := get_slice y None (Some id) in
  let y_test := get_slice y (Some id) None in
  let X_train := get_slice_X X None (Some id) in
  let X_test := get_slice_X X (Some id) None in
  (forecaster <- lift (est_fit forecaster y_train X_train
                         (Some (Absolute (series_index y_test)))) ;;
   residuals <-
     match est_predict_residuals forecaster y_test X_test with
     | Ok r => ret (Some r)
     | Raise IndexError =>
         warn (CouldNotPredict (length y_train)) ;;; ret None
     | Raise e => raise e
     end ;;
   match residuals with
   | Some r => ret r
   | None => raise UnboundLocalError
   end)%comp.

(** The rows written back, keyed by anchor. *)
Definition write_rows (residuals_matrix : DataFrame) (y_index : Index)
  (all_residuals : list Series) : DataFrame :=
  fold_left (fun rm ir => loc_set_row rm (fst ir) (snd ir))
            (combine y_index all_residuals) residuals_matrix.

(** [ConformalIntervals._compute_sliding_residuals]; [rng] is the state of
    the global random generator when the call is made. *)
Definition _compute_sliding_residuals (self : Wrapper) (rng : RandomState)
  (y : Series) (X : Exog) (forecaster : estimator)
  (initial_window : window_spec) (sample_frac : option Q) (update : bool)
  : M DataFrame :=
  (n_initial_window <- lift (_parse_initial_window y initial_window) ;;
   let y_index := series_index (iloc_from y n_initial_window) in
   let residuals_matrix := empty_frame y_index y_index in
   st <-
     match update, residuals_matrix_ self with
     | true, Some old =>
         rm <- lift (loc_set_block residuals_matrix old) ;;
         ret (index_difference y_index (df_index old), rm)
     | _, _ => ret (y_index, residuals_matrix)
     end ;;
   let y_index := fst st in
   let residuals_matrix := snd st in
   y_index <-
     (if truthy sample_frac
      then match sample_frac with
           | Some frac => lift (pd_sample rng frac y_index)
           | None => ret y_index
           end
      else ret y_index) ;;
   all_residuals <-
     Parallel (n_jobs self)
       (map (fun id => _get_residuals_matrix_row (clone forecaster) y X id)
            y_index) ;;
   ret (write_rows residuals_matrix y_index all_residuals))%comp.

Definition set_fh_early_ (self : Wrapper) (v : bool) : Wrapper :=
  mkWrapper (forecaster self) (method self) (verbose self)
    (initial_window self) (sample_frac self) (n_jobs self)
    (Some v) (forecaster_ self) (residuals_matrix_ self)
    (_y self) (_X self) (cutoff self).

Definition set_forecaster_ (self : Wrapper) (v : estimator) : Wrapper :=
  mkWrapper (forecaster self) (method self) (verbose self)
    (initial_window self) (sample_frac self) (n_jobs self)
    (fh_early_ self) (Some v) (residuals_matrix_ self)
    (_y self) (_X self) (cutoff self).

Definition set_residuals_matrix_ (self : Wrapper) (v : DataFrame) : Wrapper :=
  mkWrapper (forecaster self) (method self) (verbose self)
    (initial_window self) (sample_frac self) (n_jobs self)
    (fh_early_ self) (forecaster_ self) (Some v)
    (_y self) (_X self) (cutoff self).

Definition set_data (self : Wrapper) (y : Series) (X : Exog) : Wrapper :=
  mkWrapper (forecaster self) (method self) (verbose self)
    (initial_window self) (sample_frac self) (n_jobs self)
    (fh_early_ self) (forecaster_ self) (residuals_matrix_ self)
    y X (last (series_index y) 0).

Definition is_Some {A} (a : option A) : bool :=
  match a with Some _ => true | None => false end.

(** [ConformalIntervals._fit]: the wrapper after the call (also when it
    raised), and the outcome. *)
Definition _fit (self : Wrapper) (rng : RandomState) (y : Series) (X : Exog)
  (fh : option ForecastingHorizon) : Wrapper * M unit :=
  let self := set_fh_early_ self (is_Some fh) in
  match est_fit (clone (forecaster self)) y X fh with
  | Raise e => (self, raise e)
  | Ok fitted =>
      let self := set_forecaster_ self fitted in
      if is_Some fh
      then
        match _compute_sliding_residuals self rng y X (forecaster self)
                (initial_window self) (sample_frac self) false with
        | (ws, Ok rm) => (set_residuals_matrix_ self rm, (ws, Ok tt))
        | (ws, Raise e) => (self, (ws, Raise e))
        end
      else (self, ret tt)
  end.

(** Modelled from the spec: [BaseForecaster.fit] is not among the sources;
    by section 3 and the glossary it keeps the training series and its
    cutoff (the last index of [y]) and runs [_fit]. *)
Definition fit (self : Wrapper) (rng : RandomState) (y : Series) (X : Exog)
  (fh : option ForecastingHorizon) : Wrapper * M unit :=
  _fit (set_data self y X) rng y X fh.

(** [ConformalIntervals._update]: the wrapper after the call (also when it
    raised), and the outcome. *)
Definition _update (self : Wrapper) (rng : RandomState) (y : Series)
  (X : Exog) (update_params : bool) : Wrapper * M unit :=
  match getattr (forecaster_ self) with
  | Raise e => (self, raise e)
  | Ok f =>
      match est_update f y X update_params with
      | Raise e => (self, raise e)
      | Ok f =>
          let self := set_forecaster_ self f in
          match getattr (residuals_matrix_ self) with
          | Raise e => (self, raise e)
          | Ok old =>
              if max_lt (index_max (df_index old))
                        (index_max (series_index y))
              then
                match _compute_sliding_residuals self rng y X f
                        (initial_window self) (sample_frac self) true with
                | (ws, Ok rm) => (set_residuals_matrix_ self rm, (ws, Ok tt))
                | (ws, Raise e) => (self, (ws, Raise e))
                end
              else (self, ret tt)
          end
      end
  end.

Local Open Scope Q_scope.

(** The body of the loop over the horizon in [_predict_interval]: the
    quantiles of the lag-[offset] residuals for the method.  A method none of
    the branches knows leaves [pred_int_row] unbound. *)
Definition pred_int_row (method : string)
  (residuals_matrix : list (list float)) (offset : Z) (coverage : list Q)
  (len_fh : nat) : result (list float) :=
  let resids := np_diagonal residuals_matrix offset in
  let resids := dropna resids in
  let abs_resids := np_abs resids in
  let coverage2 := np_repeat2 coverage in
  let pred_int_row :=
    if (method =? "empirical")%string
    then
      let quantiles :=
        map (fun x => (1 # 2) + x)
            (np_mul (np_tile [- (1 # 2); 1 # 2] (length coverage)) coverage2) in
      Some (np_quantile resids quantiles)
    else None in
  let pred_int_row :=
    if (method =? "empirical_residual")%string
    then
      let quantiles := map (fun c => (1 # 2) - (1 # 2) * c) coverage2 in
      Some (np_quantile abs_resids quantiles)
    else if (method =? "conformal_bonferroni")%string
    then
      let alphas := map (fun c => 1 - c) coverage2 in
      let quantiles :=
        map (fun a => 1 - a / inject_Z (Z.of_nat len_fh)) alphas in
      Some (np_quantile abs_resids quantiles)
    else if (method =? "conformal")%string
    then
      let quantiles := coverage2 in
      Some (np_quantile abs_resids quantiles)
    else pred_int_row in
  match pred_int_row with
  | Some r => r
  | None => Raise UnboundLocalError
  end.

Definition ABS_RESIDUAL_BASED : list string :=
  ["conformal"; "conformal_bonferroni"; "empirical_residual"]%string.

(** The signs of the last loop, one per column
    [(coverage, "lower"), (coverage, "upper")]. *)
Definition col_signs (method : string) (coverage : list Q) : list Q :=
  flat_map (fun _ =>
              if existsb (String.eqb method) ABS_RESIDUAL_BASED
              then [1 - 2 * 1; 1 - 2 * 0]
              else [1; 1])
           coverage.

(** [y_pred + sign * pred_int[col]] on one row. *)
Fixpoint add_point (y_pred : Q) (signs : list Q) (row : list float)
  : list float :=
  match signs, row with
  | s :: signs', v :: row' =>
      float_add (Some y_pred) (float_mul (Some s) v)
      :: add_point y_pred signs' row'
  | _, _ => []
  end.

Fixpoint map_result {A B} (f : A -> result B) (l : list A)
  : result (list B) :=
  match l with
  | [] => Ok []
  | x :: r =>
      match f x with
      | Raise e => Raise e
      | Ok b =>
          match map_result f r with
          | Raise e => Raise e
          | Ok bs => Ok (b :: bs)
          end
      end
  end.

(** The interval table: one row per horizon entry, labelled by its absolute
    index; a row lists, for each coverage in turn, lower then upper.  The
    entries of a horizon are distinct, so the row of a label is the row at
    its position. *)
Definition Table : Type := list (Z * list float).

(** [ConformalIntervals._predict]: the point forecasts of the fitted clone,
    one per horizon entry. *)
Definition _predict (self : Wrapper) (fh : ForecastingHorizon) (X : Exog)
  : result (list Q) :=
  match getattr (forecaster_ self) with
  | Raise e => Raise e
  | Ok fitted => Ok (map (est_predict fitted X) (to_relative fh (cutoff self)))
  end.

(** [ConformalIntervals._predict_interval] *)
Definition _predict_interval (self : Wrapper) (rng : RandomState)
  (fh : ForecastingHorizon) (X : Exog) (coverage : list Q) : M Table :=
  let fh_relative := to_relative fh (cutoff self) in
  let fh_absolute := to_absolute fh (cutoff self) in
  (fh_early <- lift (getattr (fh_early_ self)) ;;
   residuals_matrix <-
     (if fh_early : bool
      then lift (getattr (residuals_matrix_ self))
      else _compute_sliding_residuals self rng (_y self) (_X self)
             (forecaster self) (initial_window self) (sample_frac self)
             false) ;;
   rows <- lift (map_result
                   (fun offset =>
                      pred_int_row (method self) (df_values residuals_matrix)
                        offset coverage (fh_len fh))
                   fh_relative) ;;
   y_pred <- lift (_predict self fh X) ;;
   ret (map (fun r => (fst (fst r),
                       add_point (snd (fst r))
                         (col_signs (method self) coverage) (snd r)))
            (combine (combine fh_absolute y_pred) rows)))%comp.

(** The residual matrix a call of [_predict_interval] works on: the cached
    one after an early [fh], a fresh one otherwise. *)
Definition interval_matrix (self : Wrapper) (rng : RandomState)
  : M DataFrame :=
  (fh_early <- lift (getattr (fh_early_ self)) ;;
   if fh_early : bool
   then lift (getattr (residuals_matrix_ self))
   else _compute_sliding_residuals self rng (_y self) (_X self)
          (forecaster self) (initial_window self) (sample_frac self)
          false)%comp.

End ConformalIntervals.

(** ** A concrete point forecaster and a concrete sampler

    Used to run the wrapper on explicit inputs. *)

(** A persistence forecaster ([y-hat_{t+h} = y_t]) that can predict at most
    [max_steps] steps ahead (any number when [None]). *)
Record naive : Type := mkNaive {
  max_steps : option nat;
  train : option Series
}.

Definition naive_clone (e : naive) : naive := mkNaive (max_steps e) None.

Definition naive_fit (e : naive) (y : Series) (X : Exog)
  (fh : option ForecastingHorizon) : result naive :=
  Ok (mkNaive (max_steps e) (Some y)).

Definition last_value (y : Series) : Q := last (map snd y) 0%Q.

Definition naive_predict_residuals (e : naive) (y_test : Series) (X : Exog)
  : result Series :=
  match train e with
  | None => Raise ForecasterFailure
  | Some tr =>
      if match max_steps e with
         | Some k => (k <? length y_test)%nat
         | None => false
         end
      then Raise IndexError
      else Ok (map (fun e => (fst e, (snd e - last_value tr)%Q)) y_test)
  end.

Definition naive_predict (e : naive) (X : Exog) (h : Z) : Q :=
  match train e with
  | None => 0%Q
  | Some tr => last_value tr
  end.

Definition naive_update (e : naive) (y : Series) (X : Exog) (p : bool)
  : result naive :=
  match train e with
  | None => Raise ForecasterFailure
  | Some tr => Ok (mkNaive (max_steps e) (Some (tr ++ y)))
  end.

(** A sampler whose random state is a rotation of the population: it keeps
    the first [floor (frac * n + 1/2)] labels of the rotated index. *)
Definition rotate {A} (r : nat) (l : list A) : list A :=
  skipn (r mod length l) l ++ firstn (r mod length l) l.

Definition rot_sample (rng : nat) (frac : Q) (ix : Index) : result Index :=
  if Qle_bool 0 frac && Qle_bool frac 1
  then Ok (firstn (Z.to_nat (Qfloor (frac * inject_Z (Z.of_nat (length ix))
                                      + (1 # 2))))
                  (rotate rng ix))
  else Raise ValueError.

Definition naive_compute :=
  _compute_sliding_residuals naive_clone naive_fit naive_predict_residuals
    rot_sample.

Definition naive_fit_wrapper :=
  fit naive_clone naive_fit naive_predict_residuals rot_sample.

Definition naive_update_wrapper :=
  _update naive_clone naive_fit naive_predict_residuals naive_update rot_sample.

Definition naive_predict_interval :=
  _predict_interval naive_clone naive_fit naive_predict_residuals naive_predict
    rot_sample.

(** A wrapper around the persistence forecaster, as [__init__] leaves it. *)
Definition naive_wrapper (method : string) (initial_window : window_spec)
  (sample_frac : option Q) : Wrapper naive :=
  mkWrapper (mkNaive None None) method false initial_window sample_frac None
    None None None [] None 0.

(** ** The quantile rules in the words of the specification (section 4.3) *)

(** [c2 = (c1, c1, c2, c2, ..., ck, ck)]: each coverage duplicated for
    lower and upper. *)
Definition coverage_twice (c : list Q) : list Q := flat_map (fun x => [x; x]) c.

(** The lag-[h] residuals: the [h]-th diagonal of the matrix, NaN removed. *)
Definition lag_residuals (R : list (list float)) (h : Z) : list Q :=
  dropna (np_diagonal R h).

(** The sample column of the table of section 4.3. *)
Definition rule_sample (m : string) (R : list (list float)) (h : Z) : list Q :=
  if (m =? "empirical")%string then lag_residuals R h
  else np_abs (lag_residuals R h).

(** The probability column of the table of section 4.3; [H] is [|fh|]. *)
Definition rule_probabilities (m : string) (c : list Q) (H : nat) : list Q :=
  if (m =? "empirical")%string
  then flat_map (fun x => [(1 # 2) + - (1 # 2) * x; (1 # 2) + (1 # 2) * x]%Q) c
  else if (m =? "empirical_residual")%string
  then map (fun x => (1 # 2) - (1 # 2) * x)%Q (coverage_twice c)
  else if (m =? "conformal")%string
  then coverage_twice c
  else map (fun x => 1 - (1 - x) / inject_Z (Z.of_nat H))%Q (coverage_twice c).

(** The probability at which an absolute-residual method reads the
    half-width for coverage [c]. *)
Definition quantile_level (m : string) (H : nat) (c : Q) : Q :=
  if (m =? "empirical_residual")%string then ((1 # 2) - (1 # 2) * c)%Q
  else if (m =? "conformal")%string then c
  else (1 - (1 - c) / inject_Z (Z.of_nat H))%Q.

(** The half-width an absolute-residual method reads for coverage [c] at
    lag [h]. *)
Definition half_width (m : string) (R : list (list float)) (h : Z) (H : nat)
  (c : Q) : Q :=
  quantile_sorted (np_sort (np_abs (lag_residuals R h))) (quantile_level m H c).

(** A series of [n] points labelled [0 .. n-1] with values [0, 1, 4, 9, ...]. *)
Definition squares (n : nat) : Series :=
  map (fun k => (Z.of_nat k, inject_Z (Z.of_nat (k * k)))) (seq 0 n).

(** The persistence forecaster wrapped with method [m] and fitted, with the
    horizon [1, 2, 3], on the squares [0, 1, 4, ..., 361]. *)
Definition fitted_naive (m : string) : Wrapper naive :=
  fst (naive_fit_wrapper (naive_wrapper m WNone None) 0%nat (squares 20) None
         (Some (Relative [1; 2; 3]))).

(** A strictly increasing index, as a time index is. *)
Fixpoint increasing (ix : Index) : bool :=
  match ix with
  | a :: (b :: _) as r => (a <? b)%Z && increasing r
  | _ => true
  end.

(** A persistence forecaster that cannot predict more than three steps. *)
Definition short_sighted : naive := mkNaive (Some 3%nat) None.

(** The wrapped persistence forecaster fitted, with horizon [1], on the first
    fifteen points of the ramp. *)
Definition fitted_ramp15 : Wrapper naive :=
  fst (naive_fit_wrapper (naive_wrapper "empirical" WNone None) 0%nat (ramp 15)
         None (Some (Relative [1%Z]))).

(** A frame whose values have one row per index label and one cell per
    column. *)
Definition rectangular (df : DataFrame) : Prop :=
  length (df_values df) = length (df_index df)
  /\ Forall (fun r => length r = length (df_columns df)) (df_values df).

(** [df.loc[id]]: the cells of the first row labelled [id]. *)
Definition df_row (df : DataFrame) (id : Z) : option (list float) :=
  match position id (df_index df) with
  | Some i => nth_error (df_values df) i
  | None => None
  end.

(** The state [_fit] leaves when it was given a horizon: the flag, the
    fitted clone and the cached matrix are all set. *)
Definition fitted_early {estimator : Type} (w : Wrapper estimator) : bool :=
  match fh_early_ w with
  | Some true => is_Some (residuals_matrix_ w) && is_Some (forecaster_ w)
  | _ => false
  end.

(** A wrapper that holds the squares as training data, not yet fitted. *)
Definition holding_squares (m : string) : Wrapper naive :=
  mkWrapper (mkNaive None None) m false WNone None None None None None
    (squares 20) None 19.

(** ** Test scenarios for forecasters
       (sktime.utils._testing.scenarios_forecasting) *)

(** The tags a scenario class sets in [_tags]. *)
Record Scenario : Type := mkScenario {
  scenario_name : string;
  univariate_y : bool;
  fh_passed_in_fit : bool;
  is_enabled : option bool
}.

(** What [is_applicable] may be handed: a [BaseForecaster] instance or
    subclass, with its tags "scitype:y" and "requires-fh-in-fit", or some
    other class, or an instance of some other class. *)
Inductive test_object : Type :=
| Forecaster (is_class : bool) (scitype_y : string) (requires_fh_in_fit : bool)
| OtherClass
| OtherInstance.

(** [ForecasterTestScenario.is_applicable].  [issubclass] is only evaluated
    when [isinstance] is false, and raises [TypeError] when its first
    argument is not a class. *)
Definition is_applicable (self : Scenario) (obj : test_object) : result bool :=
  match obj with
  | OtherInstance => Raise TypeError
  | OtherClass => Ok false
  | Forecaster _ scitype requires_fh =>
      let is_univariate := univariate_y self in
      if is_univariate && (scitype =? "multivariate")%string then Ok false
      else if negb is_univariate && (scitype =? "univariate")%string
      then Ok false
      else
        let fh_in_fit := fh_passed_in_fit self in
        if negb fh_in_fit && requires_fh then Ok false
        else Ok true
  end.

Definition ForecasterFitPredictUnivariateNoX : Scenario :=
  mkScenario "ForecasterFitPredictUnivariateNoX" true true (Some false).
Definition ForecasterFitPredictUnivariateNoXEarlyFh : Scenario :=
  mkScenario "ForecasterFitPredictUnivariateNoXEarlyFh" true true None.
Definition ForecasterFitPredictUnivariateNoXLateFh : Scenario :=
  mkScenario "ForecasterFitPredictUnivariateNoXLateFh" true false None.
Definition ForecasterFitPredictUnivariateNoXLongFh : Scenario :=
  mkScenario "ForecasterFitPredictUnivariateNoXLongFh" true true None.
Definition ForecasterFitPredictUnivariateWithX : Scenario :=
  mkScenario "ForecasterFitPredictUnivariateWithX" true true (Some true).
Definition ForecasterFitPredictUnivariateWithXLongFh : Scenario :=
  mkScenario "ForecasterFitPredictUnivariateWithXLongFh" true true None.
Definition ForecasterFitPredictMultivariateNoX : Scenario :=
  mkScenario "ForecasterFitPredictMultivariateNoX" false true (Some true).
Definition ForecasterFitPredictMultivariateWithX : Scenario :=
  mkScenario "ForecasterFitPredictMultivariateWithX" false true None.
Definition ForecasterFitPredictPanelSimple : Scenario :=
  mkScenario "ForecasterFitPredictPanelSimple" true true None.
Definition ForecasterFitPredictHierarchicalSimple : Scenario :=
  mkScenario "ForecasterFitPredictHierarchicalSimple" true true None.

Definition forecasting_scenarios_simple : list Scenario :=
  [ForecasterFitPredictUnivariateNoX; ForecasterFitPredictMultivariateWithX].

Definition forecasting_scenarios_extended : list Scenario :=
  [ForecasterFitPredictUnivariateNoX;
   ForecasterFitPredictUnivariateNoXEarlyFh;
   ForecasterFitPredictUnivariateNoXLateFh;
   ForecasterFitPredictUnivariateWithX;
   ForecasterFitPredictUnivariateWithXLongFh;
   ForecasterFitPredictMultivariateNoX;
   ForecasterFitPredictMultivariateWithX;
   ForecasterFitPredictPanelSimple;
   ForecasterFitPredictHierarchicalSimple].

(** A [ConformalIntervals] instance as a test object: its class tag
    "scitype:y" is "univariate"; "requires-fh-in-fit" is cloned from the
    wrapped forecaster by [__init__]. *)
Definition conformal_test_object (wrapped_requires_fh : bool) : test_object :=
  Forecaster false "univariate" wrapped_requires_fh.

(** The value a task returned, when it returned. *)
Definition task_value {A} (d : A) (t : M A) : A :=
  match snd t with Ok a => a | Raise _ => d end.

(** * Properties *)

(** ** Order statistics and quantiles *)

Local Open Scope Q_scope.

Lemma Qle_bool_false_le (x y : Q) : Qle_bool x y = false -> y <= x.
Proof.
  intro H. destruct (Qlt_le_dec x y) as [Hlt | Hle]; [| exact Hle].
  apply Qlt_le_weak in Hlt. apply Qle_bool_iff in Hlt. congruence.
Qed.

Lemma Qle_bool_false_lt (x y : Q) : Qle_bool x y = false -> y < x.
Proof.
  intro H. destruct (Qlt_le_dec y x) as [Hlt | Hle]; [exact Hlt |].
  apply Qle_bool_iff in Hle. congruence.
Qed.

Lemma insert_sorted_In (x y : Q) (l : list Q) :
  In y (insert_sorted x l) -> y = x \/ In y l.
Proof.
  induction l as [| z l IH]; simpl.
  - intros [H | []]; auto.
  - destruct (Qle_bool x z); simpl.
    + intros [H | H]; auto.
    + intros [H | H]; auto. destruct (IH H); auto.
Qed.

Lemma insert_sorted_sorted (x : Q) (l : list Q) :
  StronglySorted Qle l -> StronglySorted Qle (insert_sorted x l).
Proof.
  induction 1 as [| z l Hs IH Hall]; simpl.
  - repeat constructor.
  - destruct (Qle_bool x z) eqn:E.
    + apply Qle_bool_iff in E.
      constructor; [constructor; assumption |].
      constructor; [assumption |].
      rewrite Forall_forall in *. intros y Hy.
      apply Qle_trans with z; auto.
    + apply Qle_bool_false_le in E.
      constructor; [assumption |].
      rewrite Forall_forall in *. intros y Hy.
      destruct (insert_sorted_In _ _ _ Hy) as [-> | Hin]; auto.
Qed.

Lemma np_sort_sorted (l : list Q) : StronglySorted Qle (np_sort l).
Proof.
  induction l; simpl; [constructor | apply insert_sorted_sorted; assumption].
Qed.

Lemma insert_sorted_length (x : Q) (l : list Q) :
  length (insert_sorted x l) = S (length l).
Proof.
  induction l as [| z l IH]; simpl; [reflexivity |].
  destruct (Qle_bool x z); simpl; congruence.
Qed.

Lemma np_sort_length (l : list Q) : length (np_sort l) = length l.
Proof.
  induction l; simpl; [reflexivity |].
  rewrite insert_sorted_length. congruence.
Qed.

Lemma sorted_nth_le (a : list Q) :
  StronglySorted Qle a ->
  forall i j, (i <= j)%nat -> (j < length a)%nat -> nth i a 0 <= nth j a 0.
Proof.
  induction 1 as [| z l Hs IH Hall]; simpl; intros i j Hij Hj.
  - lia.
  - destruct i as [| i]; destruct j as [| j]; try lia.
    + apply Qle_refl.
    + rewrite Forall_forall in Hall. apply Hall. apply nth_In. lia.
    + apply IH; lia.
Qed.

(** The interpolated value lies between the two order statistics it is
    taken from. *)
Lemma interpolate_between (lo hi g : Q) :
  lo <= hi -> 0 <= g -> g <= 1 ->
  lo <= lo + g * (hi - lo) /\ lo + g * (hi - lo) <= hi.
Proof.
  intros Hlh Hg0 Hg1. split; nra.
Qed.

Lemma interpolate_mono (lo hi g g' : Q) :
  lo <= hi -> g <= g' -> lo + g * (hi - lo) <= lo + g' * (hi - lo).
Proof.
  intros. nra.
Qed.

Lemma Qfloor_nonneg (x : Q) : 0 <= x -> (0 <= Qfloor x)%Z.
Proof.
  intro H. change 0%Z with (Qfloor 0). apply Qfloor_resp_le. exact H.
Qed.

(** The quantile is monotone in the probability. *)
Lemma quantile_sorted_mono (a : list Q) (p p' : Q) :
  StronglySorted Qle a -> a <> [] ->
  0 <= p -> p <= p' -> p' <= 1 ->
  quantile_sorted a p <= quantile_sorted a p'.
Proof.
  intros Hs Hne H0 Hpp H1.
  unfold quantile_sorted.
  set (n := length a).
  assert (Hn : (0 < n)%nat) by (destruct a; [congruence | subst n; simpl; lia]).
  set (m := inject_Z (Z.of_nat (n - 1))).
  assert (Hm : 0 <= m).
  { subst m. change 0 with (inject_Z 0). rewrite <- Zle_Qle. lia. }
  set (t := m * p). set (t' := m * p').
  assert (Ht0 : 0 <= t) by (subst t; nra).
  assert (Htt : t <= t') by (subst t t'; nra).
  assert (Htm : t' <= m) by (subst t'; nra).
  pose proof (Qfloor_le t) as Hfl. pose proof (Qlt_floor t) as Hfu.
  pose proof (Qfloor_le t') as Hfl'. pose proof (Qlt_floor t') as Hfu'.
  pose proof (Qfloor_nonneg Ht0) as Hj0.
  pose proof (Qfloor_resp_le _ _ Htt) as Hjj.
  assert (Hjm : (Qfloor t' <= Z.of_nat (n - 1))%Z).
  { rewrite <- (Qfloor_Z (Z.of_nat (n - 1))). apply Qfloor_resp_le. exact Htm. }
  set (j := Qfloor t) in *. set (j' := Qfloor t') in *.
  rewrite inject_Z_plus in Hfu, Hfu'.
  change (inject_Z 1) with 1 in Hfu, Hfu'.
  assert (Hlohi : forall k, (0 <= k <= Z.of_nat (n - 1))%Z ->
            nth (Z.to_nat k) a 0 <= nth (Nat.min (S (Z.to_nat k)) (n - 1)) a 0).
  { intros k Hk. apply sorted_nth_le; [assumption | lia | fold n; lia]. }
  destruct (Z.eq_dec j j') as [E | NE].
  - rewrite <- E.
    apply interpolate_mono; [apply Hlohi; lia | lra].
  - assert (Hlt : (j < j')%Z) by lia.
    apply Qle_trans with (nth (Nat.min (S (Z.to_nat j)) (n - 1)) a 0).
    + apply interpolate_between; [apply Hlohi; lia | lra | lra].
    + apply Qle_trans with (nth (Z.to_nat j') a 0).
      * apply sorted_nth_le; [assumption | lia | fold n; lia].
      * apply interpolate_between; [apply Hlohi; lia | lra | lra].
Qed.

(** A quantile of absolute residuals is not negative. *)
Lemma quantile_sorted_nonneg (a : list Q) (p : Q) :
  StronglySorted Qle a -> a <> [] -> Forall (fun x => 0 <= x) a ->
  0 <= p -> p <= 1 -> 0 <= quantile_sorted a p.
Proof.
  intros Hs Hne Hall H0 H1.
  unfold quantile_sorted.
  set (n := length a).
  assert (Hn : (0 < n)%nat) by (destruct a; [congruence | subst n; simpl; lia]).
  set (m := inject_Z (Z.of_nat (n - 1))).
  assert (Hm : 0 <= m).
  { subst m. change 0 with (inject_Z 0). rewrite <- Zle_Qle. lia. }
  set (t := m * p).
  assert (Ht0 : 0 <= t) by (subst t; nra).
  assert (Htm : t <= m) by (subst t; nra).
  pose proof (Qfloor_le t) as Hfl. pose proof (Qlt_floor t) as Hfu.
  pose proof (Qfloor_nonneg Ht0) as Hj0.
  assert (Hjm : (Qfloor t <= Z.of_nat (n - 1))%Z).
  { rewrite <- (Qfloor_Z (Z.of_nat (n - 1))). apply Qfloor_resp_le. exact Htm. }
  rewrite inject_Z_plus in Hfu. change (inject_Z 1) with 1 in Hfu.
  rewrite Forall_forall in Hall.
  apply Qle_trans with (nth (Z.to_nat (Qfloor t)) a 0).
  - apply Hall, nth_In. fold n. lia.
  - apply interpolate_between; [| lra | lra].
    apply sorted_nth_le; [assumption | lia | fold n; lia].
Qed.

(** ** The quantile engine *)

Lemma np_repeat2_twice (c : list Q) : np_repeat2 c = coverage_twice c.
Proof.
  induction c as [| x c IH]; simpl; [reflexivity | now rewrite IH].
Qed.

Lemma tile_times_repeat (a b : Q) (c : list Q) :
  np_mul (np_tile [a; b] (length c)) (np_repeat2 c)
  = flat_map (fun x => [a * x; b * x]) c.
Proof.
  induction c as [| x c IH]; simpl; [reflexivity | now rewrite IH].
Qed.

Lemma map_flat_map_pair (f : Q -> Q) (g1 g2 : Q -> Q) (c : list Q) :
  map f (flat_map (fun x => [g1 x; g2 x]) c)
  = flat_map (fun x => [f (g1 x); f (g2 x)]) c.
Proof.
  induction c as [| x c IH]; simpl; [reflexivity | now rewrite IH].
Qed.

(** The entries of [np.diagonal(m, offset)] for a non-negative offset are
    the cells [m[i][i + offset]]. *)
Lemma diag_from_nth_error (rows : list (list float)) (col i : nat) (v : float) :
  nth_error (diag_from rows col) i = Some v ->
  exists row, nth_error rows i = Some row
              /\ nth_error row (col + i) = Some v.
Proof.
  revert col i. induction rows as [| r rows IH]; intros col i; simpl.
  - destruct i; discriminate.
  - destruct (nth_error r col) as [x |] eqn:Hx; [| destruct i; discriminate].
    destruct i as [| i]; simpl.
    + intros [= <-]. exists r. rewrite Nat.add_0_r. auto.
    + intro H. destruct (IH _ _ H) as (row & Hrow & Hv).
      exists row. split; [exact Hrow |].
      replace (col + S i)%nat with (S col + i)%nat by lia. exact Hv.
Qed.

(** C1: for each of the four methods the loop body of [_predict_interval]
    takes the quantiles of the sample of section 4.3 (signed lag-h residuals
    for "empirical", absolute ones otherwise; the h-th diagonal with NaN
    removed) at the probabilities of section 4.3. *)
Theorem pred_int_row_rule (m : string) (R : list (list float)) (h : Z)
  (c : list Q) (H : nat) :
  In m ALLOWED_METHODS ->
  pred_int_row m R h c H
  = np_quantile (rule_sample m R h) (rule_probabilities m c H).
Proof.
  intros Hm. simpl in Hm.
  destruct Hm as [<- | [<- | [<- | [<- | []]]]];
    unfold pred_int_row, rule_sample, rule_probabilities, lag_residuals;
    cbn [String.eqb Ascii.eqb Bool.eqb].
  - rewrite tile_times_repeat, map_flat_map_pair. reflexivity.
  - rewrite np_repeat2_twice. reflexivity.
  - rewrite np_repeat2_twice. reflexivity.
  - rewrite np_repeat2_twice, map_map. reflexivity.
Qed.

Lemma pred_int_row_rule_witness :
  In "conformal_bonferroni"%string ALLOWED_METHODS
  /\ pred_int_row "conformal_bonferroni"
       [[Some 1; Some (-2)]; [NaN; Some 3]] 0 [4 # 5] 3
     = np_quantile (rule_sample "conformal_bonferroni"
                      [[Some 1; Some (-2)]; [NaN; Some 3]] 0)
                   (rule_probabilities "conformal_bonferroni" [4 # 5] 3).
Proof.
  split; [simpl; tauto | apply pred_int_row_rule; simpl; tauto].
Defined.

(** ** Lists, results *)

Lemma nth_error_flat_map_pair {A B} (f1 f2 : A -> B) (l : list A) (i : nat) :
  nth_error (flat_map (fun x => [f1 x; f2 x]) l) (2 * i)
  = option_map f1 (nth_error l i)
  /\ nth_error (flat_map (fun x => [f1 x; f2 x]) l) (2 * i + 1)
     = option_map f2 (nth_error l i).
Proof.
  revert i. induction l as [| x l IH]; intro i.
  - simpl. destruct i; simpl; split; try reflexivity;
      destruct (i + S (i + 0) + 1)%nat; reflexivity.
  - destruct i as [| i].
    + simpl. split; reflexivity.
    + replace (2 * S i)%nat with (S (S (2 * i))) by lia.
      replace (S (S (2 * i)) + 1)%nat with (S (S (2 * i + 1))) by lia.
      simpl flat_map. cbn [app nth_error]. apply IH.
Qed.

Lemma nth_error_combine {A B} (l1 : list A) (l2 : list B) (k : nat) a b :
  nth_error (combine l1 l2) k = Some (a, b) ->
  nth_error l1 k = Some a /\ nth_error l2 k = Some b.
Proof.
  revert l2 k. induction l1 as [| x l1 IH]; intros [| y l2] [| k]; simpl;
    try discriminate.
  - intros [= -> ->]. auto.
  - apply IH.
Qed.

Lemma map_result_nth {A B} (f : A -> result B) (l : list A) (rs : list B)
  (k : nat) (r : B) :
  map_result f l = Ok rs -> nth_error rs k = Some r ->
  exists x, nth_error l k = Some x /\ f x = Ok r.
Proof.
  revert rs k. induction l as [| x l IH]; simpl; intros rs k.
  - intros [= <-]. destruct k; discriminate.
  - destruct (f x) as [b |] eqn:Hfx; [| discriminate].
    destruct (map_result f l) as [bs |] eqn:Hr; [| discriminate].
    intros [= <-]. destruct k as [| k]; simpl.
    + intros [= <-]. exists x. auto.
    + intro Hk. apply (IH bs k eq_refl Hk).
Qed.

(** ** Rows of the interval table for the absolute-residual methods *)

(** The three absolute-residual branches of the loop body. *)
Lemma pred_int_row_abs (m : string) (R : list (list float)) (h : Z)
  (c : list Q) (H : nat) :
  In m ABS_RESIDUAL_BASED ->
  pred_int_row m R h c H
  = np_quantile (np_abs (lag_residuals R h))
                (map (quantile_level m H) (coverage_twice c)).
Proof.
  simpl. intros [<- | [<- | [<- | []]]];
    unfold pred_int_row, quantile_level, lag_residuals;
    cbn [String.eqb Ascii.eqb Bool.eqb]; rewrite np_repeat2_twice.
  - rewrite map_id. reflexivity.
  - rewrite map_map. reflexivity.
  - reflexivity.
Qed.

Lemma add_point_abs (m : string) (yp : Q) (F : Q -> Q) (c : list Q) :
  In m ABS_RESIDUAL_BASED ->
  add_point yp (col_signs m c) (map (fun p => Some (F p)) (coverage_twice c))
  = flat_map (fun x => [Some (yp + (1 - 2 * 1) * F x);
                        Some (yp + (1 - 2 * 0) * F x)]) c.
Proof.
  intro Hm.
  assert (E : existsb (String.eqb m) ABS_RESIDUAL_BASED = true).
  { apply existsb_exists. exists m. split; [assumption | apply String.eqb_refl]. }
  unfold col_signs. rewrite E.
  induction c as [| x c IH]; simpl; [reflexivity |].
  simpl in IH. rewrite IH. reflexivity.
Qed.

Lemma add_point_nan (yp : Q) (signs : list Q) (ps : list Q) (k : nat) (v : Q) :
  nth_error (add_point yp signs (map (fun _ => NaN) ps)) k <> Some (Some v).
Proof.
  revert signs k. induction ps as [| p ps IH]; intros [| s signs] [| k]; simpl;
    try discriminate.
  apply IH.
Qed.

Lemma np_abs_nonneg (a : list Q) : Forall (fun x => 0 <= x) (np_abs a).
Proof.
  unfold np_abs. induction a; simpl; constructor; auto. apply Qabs_nonneg.
Qed.

(** What a numeric (lower, upper) pair of a row says about the row. *)
Lemma abs_row_entries (m : string) (R : list (list float)) (h : Z)
  (cov : list Q) (H : nat) (raw : list float) (yp : Q) (i : nat) (l u : Q) :
  In m ABS_RESIDUAL_BASED ->
  pred_int_row m R h cov H = Ok raw ->
  nth_error (add_point yp (col_signs m cov) raw) (2 * i) = Some (Some l) ->
  nth_error (add_point yp (col_signs m cov) raw) (2 * i + 1) = Some (Some u) ->
  exists c,
    nth_error cov i = Some c
    /\ np_abs (lag_residuals R h) <> []
    /\ 0 <= quantile_level m H c /\ quantile_level m H c <= 1
    /\ l = yp + (1 - 2 * 1) * half_width m R h H c
    /\ u = yp + (1 - 2 * 0) * half_width m R h H c.
Proof.
  intros Hm Hrow Hl Hu.
  rewrite (pred_int_row_abs R h cov H Hm) in Hrow.
  unfold np_quantile in Hrow.
  destruct (quantile_is_valid _) eqn:Hv; [| discriminate]. simpl in Hrow.
  assert (Hraw : np_abs (lag_residuals R h) <> []
                 /\ raw = map (fun x => Some (half_width m R h H x))
                             (coverage_twice cov)).
  { unfold half_width.
    remember (np_sort (np_abs (lag_residuals R h))) as srt.
    destruct (np_abs (lag_residuals R h)) as [| a0 s].
    - injection Hrow as <-. rewrite map_map in Hl.
      exfalso. exact (add_point_nan _ _ _ _ Hl).
    - injection Hrow as <-. rewrite map_map. split; [discriminate | reflexivity]. }
  destruct Hraw as [Hne ->].
  rewrite (add_point_abs yp (half_width m R h H) cov Hm) in Hl, Hu.
  destruct (nth_error_flat_map_pair
              (fun x => Some (yp + (1 - 2 * 1) * half_width m R h H x))
              (fun x => Some (yp + (1 - 2 * 0) * half_width m R h H x))
              cov i) as [E1 E2].
  cbv beta in E1, E2. unfold float in *. rewrite E1 in Hl. rewrite E2 in Hu.
  destruct (nth_error cov i) as [c |] eqn:Hc; [| discriminate].
  cbn [option_map] in Hl, Hu. injection Hl as <-. injection Hu as <-.
  exists c.
  assert (Hin : In (quantile_level m H c)
                   (map (quantile_level m H) (coverage_twice cov))).
  { apply in_map. unfold coverage_twice. apply in_flat_map.
    exists c. split; [eapply nth_error_In; eauto | simpl; auto]. }
  unfold quantile_is_valid in Hv. rewrite forallb_forall in Hv.
  specialize (Hv _ Hin). apply andb_true_iff in Hv as [Hv0 Hv1].
  apply Qle_bool_iff in Hv0, Hv1.
  repeat split; auto.
Qed.

(** ** Quantile levels *)

Lemma bonferroni_level_mono (H : nat) (c c' : Q) :
  c <= c' ->
  1 - (1 - c) / inject_Z (Z.of_nat H) <= 1 - (1 - c') / inject_Z (Z.of_nat H).
Proof.
  intro Hc.
  assert (Hinv : 0 <= / inject_Z (Z.of_nat H)).
  { apply Qinv_le_0_compat. change 0 with (inject_Z 0).
    rewrite <- Zle_Qle. lia. }
  unfold Qdiv. set (r := / inject_Z (Z.of_nat H)) in *. nra.
Qed.


Lemma half_width_mono (m : string) (R : list (list float)) (h : Z) (H H' : nat)
  (m' : string) (c c' : Q) :
  np_abs (lag_residuals R h) <> [] ->
  0 <= quantile_level m H c ->
  quantile_level m H c <= quantile_level m' H' c' ->
  quantile_level m' H' c' <= 1 ->
  half_width m R h H c <= half_width m' R h H' c'.
Proof.
  intros Hne H0 Hle H1. unfold half_width.
  apply quantile_sorted_mono; auto using np_sort_sorted.
  intro E. apply Hne. apply (f_equal (@length Q)) in E.
  rewrite np_sort_length in E. destruct (np_abs _); [reflexivity | discriminate].
Qed.

(** ** The interval table *)

Section IntervalProperties.

Variable estimator : Type.
Variable clone : estimator -> estimator.
Variable est_fit :
  estimator -> Series -> Exog -> option ForecastingHorizon -> result estimator.
Variable est_predict_residuals :
  estimator -> Series -> Exog -> result Series.
Variable est_predict : estimator -> Exog -> Z -> Q.
Variable RandomState : Type.
Variable pd_sample : RandomState -> Q -> Index -> result Index.

Local Abbreviation predict_interval :=
  (_predict_interval clone est_fit est_predict_residuals est_predict pd_sample).
Local Abbreviation matrix_of :=
  (interval_matrix clone est_fit est_predict_residuals pd_sample).
Local Abbreviation predict := (_predict est_predict).

(** A successful call read a matrix, computed one raw row per horizon entry
    and shifted each by the point forecast. *)
Lemma predict_interval_inv (self : Wrapper estimator) (rng : RandomState)
  (fh : ForecastingHorizon) (X : Exog) (cov : list Q)
  (ws : list warning) (t : Table) :
  predict_interval self rng fh X cov = (ws, Ok t) ->
  exists R y_pred rows,
    matrix_of self rng = (ws, Ok R)
    /\ predict self fh X = Ok y_pred
    /\ map_result
         (fun offset =>
            pred_int_row (method self) (df_values R) offset cov (fh_len fh))
         (to_relative fh (cutoff self)) = Ok rows
    /\ t = map (fun r => (fst (fst r),
                         add_point (snd (fst r))
                           (col_signs (method self) cov) (snd r)))
               (combine (combine (to_absolute fh (cutoff self)) y_pred) rows).
Proof.
  unfold _predict_interval, interval_matrix.
  destruct (getattr (fh_early_ self)) as [fe |]; cbn -[pred_int_row];
    [| discriminate].
  set (mx := if fe then _ else _).
  destruct mx as [ws0 [R |]]; cbn -[pred_int_row]; [| discriminate].
  destruct (map_result _ _) as [rows |] eqn:Hrows; cbn -[pred_int_row];
    [| discriminate].
  destruct (_predict est_predict self fh X) as [yp |] eqn:Hyp;
    cbn -[pred_int_row]; [| discriminate].
  rewrite !app_nil_r. intros [= <- <-].
  exists R, yp, rows. repeat split; assumption.
Qed.

(** The same, for one row of the table. *)
Lemma predict_interval_row (self : Wrapper estimator) (rng : RandomState)
  (fh : ForecastingHorizon) (X : Exog) (cov : list Q)
  (ws : list warning) (t : Table) (k : nat) (lbl : Z) (row : list float) :
  predict_interval self rng fh X cov = (ws, Ok t) ->
  nth_error t k = Some (lbl, row) ->
  exists R y_pred yp offset raw,
    matrix_of self rng = (ws, Ok R)
    /\ predict self fh X = Ok y_pred
    /\ nth_error y_pred k = Some yp
    /\ nth_error (to_relative fh (cutoff self)) k = Some offset
    /\ pred_int_row (method self) (df_values R) offset cov (fh_len fh)
       = Ok raw
    /\ row = add_point yp (col_signs (method self) cov) raw.
Proof.
  intros Hcall Hk.
  destruct (predict_interval_inv _ _ _ _ _ Hcall)
    as (R & y_pred & rows & HR & Hp & Hrows & ->).
  rewrite nth_error_map in Hk.
  destruct (nth_error (combine _ rows) k) as [[[a yp] raw] |] eqn:Hc;
    [| discriminate].
  simpl in Hk. injection Hk as <- <-.
  apply nth_error_combine in Hc as [Hc Hraw].
  apply nth_error_combine in Hc as [_ Hyp].
  destruct (map_result_nth _ _ _ Hrows Hraw) as (offset & Hoff & Hrow).
  exists R, y_pred, yp, offset, raw. repeat split; auto.
Qed.

Lemma to_relative_length (fh : ForecastingHorizon) (cutoff : Z) :
  length (to_relative fh cutoff) = fh_len fh.
Proof.
  destruct fh; simpl; [reflexivity | apply length_map].
Qed.



(** C2 (as amended): for one horizon entry and one residual sample, the
    width (upper minus lower) of the interval is non-decreasing in the
    coverage for "conformal" and "conformal_bonferroni", and non-increasing
    in the coverage for "empirical_residual". *)
Theorem width_monotone_in_coverage (self : Wrapper estimator)
  (rng : RandomState) (fh : ForecastingHorizon) (X : Exog) (cov : list Q)
  (ws : list warning) (t : Table) (k : nat) (lbl : Z) (row : list float)
  (i j : nat) (ci cj li ui lj uj : Q) :
  In (method self) ABS_RESIDUAL_BASED ->
  predict_interval self rng fh X cov = (ws, Ok t) ->
  nth_error t k = Some (lbl, row) ->
  nth_error cov i = Some ci ->
  nth_error cov j = Some cj ->
  ci <= cj ->
  nth_error row (2 * i) = Some (Some li) ->
  nth_error row (2 * i + 1) = Some (Some ui) ->
  nth_error row (2 * j) = Some (Some lj) ->
  nth_error row (2 * j + 1) = Some (Some uj) ->
  if (method self =? "empirical_residual")%string
  then uj - lj <= ui - li
  else ui - li <= uj - lj.
Proof.
  intros Hm Hcall Hk Hci Hcj Hle Hli Hui Hlj Huj.
  destruct (predict_interval_row _ _ _ _ _ _ Hcall Hk)
    as (R & y_pred & yp & offset & raw & _ & _ & _ & _ & Hraw & ->).
  destruct (abs_row_entries _ _ _ _ _ _ Hm Hraw Hli Hui)
    as (c & Hc & Hne & H0 & H1 & -> & ->).
  destruct (abs_row_entries _ _ _ _ _ _ Hm Hraw Hlj Huj)
    as (c' & Hc' & _ & H0' & H1' & -> & ->).
  rewrite Hci in Hc. injection Hc as <-.
  rewrite Hcj in Hc'. injection Hc' as <-.
  set (m := method self) in *.
  assert (Hlev :
            if (m =? "empirical_residual")%string
            then quantile_level m (fh_len fh) cj
                 <= quantile_level m (fh_len fh) ci
            else quantile_level m (fh_len fh) ci
                 <= quantile_level m (fh_len fh) cj).
  { simpl in Hm. destruct Hm as [<- | [<- | [<- | []]]];
      unfold quantile_level; cbn [String.eqb Ascii.eqb Bool.eqb].
    - exact Hle.
    - apply bonferroni_level_mono. exact Hle.
    - lra. }
  destruct (m =? "empirical_residual")%string.
  - assert (half_width m (df_values R) offset (fh_len fh) cj
            <= half_width m (df_values R) offset (fh_len fh) ci)
      by (apply half_width_mono; auto).
    nra.
  - assert (half_width m (df_values R) offset (fh_len fh) ci
            <= half_width m (df_values R) offset (fh_len fh) cj)
      by (apply half_width_mono; auto).
    nra.
Qed.

End IntervalProperties.

(** ** The interval table on a concrete series *)



Lemma width_monotone_in_coverage_witness :
  exists t row li ui lj uj,
    naive_predict_interval (fitted_naive "conformal_bonferroni") 0%nat
      (Relative [1; 2; 3]%Z) None [1 # 2; 9 # 10] = ([], Ok t)
    /\ nth_error t 2 = Some (22%Z, row)
    /\ nth_error row 0 = Some (Some li)
    /\ nth_error row 1 = Some (Some ui)
    /\ nth_error row 2 = Some (Some lj)
    /\ nth_error row 3 = Some (Some uj)
    /\ ui - li <= uj - lj.
Proof.
  do 6 eexists.
  split; [vm_compute; reflexivity |].
  do 5 (split; [reflexivity |]).
  eapply (@width_monotone_in_coverage naive naive_clone naive_fit
            naive_predict_residuals naive_predict nat rot_sample
            (fitted_naive "conformal_bonferroni") 0%nat (Relative [1; 2; 3]%Z)
            None [1 # 2; 9 # 10] [] _ 2%nat 22%Z _ 0%nat 1%nat (1 # 2) (9 # 10)).
  - vm_compute. tauto.
  - vm_compute. reflexivity.
  - reflexivity.
  - reflexivity.
  - reflexivity.
  - unfold Qle; simpl; lia.
  - reflexivity.
  - reflexivity.
  - reflexivity.
  - reflexivity.
Defined.

(** C2 (counterexample): with "empirical_residual" the interval for
    coverage 0.9 is strictly narrower than the interval for coverage 0.5, on
    the same horizon entry and the same residuals. *)
Lemma empirical_residual_width_shrinks :
  exists t row li ui lj uj,
    naive_predict_interval (fitted_naive "empirical_residual") 0%nat
      (Relative [1; 2; 3]%Z) None [1 # 2; 9 # 10] = ([], Ok t)
    /\ nth_error t 0 = Some (20%Z, row)
    /\ nth_error row 0 = Some (Some li)
    /\ nth_error row 1 = Some (Some ui)
    /\ nth_error row 2 = Some (Some lj)
    /\ nth_error row 3 = Some (Some uj)
    /\ (1 # 2) <= (9 # 10)
    /\ ~ (ui - li <= uj - lj).
Proof.
  do 6 eexists.
  split; [vm_compute; reflexivity |].
  do 5 (split; [reflexivity |]).
  split; [unfold Qle; simpl; lia |].
  unfold Qle; simpl; lia.
Qed.

(** ** The window parser *)

Local Open Scope Z_scope.

Lemma Qfloor_tenth (n : Z) : Qfloor ((1 # 10) * inject_Z n) = n / 10.
Proof.
  unfold Qfloor, Qmult, inject_Z; simpl.
  destruct n; reflexivity.
Qed.

Lemma parse_missing (y : Series) :
  _parse_initial_window y WNone = window_rule (Z.of_nat (length y)) WNone.
Proof.
  unfold _parse_initial_window, window_rule.
  set (n := Z.of_nat (length y)).
  cbn -[Qfloor Qmult Qle_bool inject_Z].
  rewrite Qfloor_tenth.
  destruct (10 <? n) eqn:Hn.
  - apply Z.ltb_lt in Hn.
    replace (n <=? Z.max 10 (n / 10)) with false.
    2:{ symmetry; apply Z.leb_gt.
        assert (n / 10 < n) by (apply Z.div_lt; lia). lia. }
    replace (Z.max 10 (n / 10) <=? 0) with false
      by (symmetry; apply Z.leb_gt; lia).
    reflexivity.
  - apply Z.ltb_ge in Hn.
    replace (n <=? Z.max 10 (n / 10)) with true
      by (symmetry; apply Z.leb_le; lia).
    reflexivity.
Qed.

Lemma parse_integer (y : Series) (z : Z) :
  _parse_initial_window y (WInt z) = window_rule (Z.of_nat (length y)) (WInt z).
Proof.
  unfold _parse_initial_window, window_rule.
  set (n := Z.of_nat (length y)). cbn.
  destruct (0 <? z) eqn:H0; destruct (z <? n) eqn:Hn; cbn;
    try apply Z.ltb_lt in H0; try apply Z.ltb_ge in H0;
    try apply Z.ltb_lt in Hn; try apply Z.ltb_ge in Hn.
  - replace (n <=? z) with false by (symmetry; apply Z.leb_gt; lia).
    replace (z <=? 0) with false by (symmetry; apply Z.leb_gt; lia).
    reflexivity.
  - replace (n <=? z) with true by (symmetry; apply Z.leb_le; lia).
    reflexivity.
  - replace (z <=? 0) with true by (symmetry; apply Z.leb_le; lia).
    rewrite orb_true_r. reflexivity.
  - replace (n <=? z) with true by (symmetry; apply Z.leb_le; lia).
    reflexivity.
Qed.

Lemma parse_fraction (y : Series) (q : Q) :
  _parse_initial_window y (WFloat q)
  = window_rule (Z.of_nat (length y)) (WFloat q).
Proof.
  unfold _parse_initial_window, window_rule, Qltb.
  cbn -[Qfloor Qmult Qle_bool inject_Z].
  change (inject_Z 0) with 0%Q. change (inject_Z 1) with 1%Q.
  destruct (Qle_bool q 0); destruct (Qle_bool 1 q); reflexivity.
Qed.



Lemma parse_ok_bounds (y : Series) (w : window_spec) (n : Z) :
  _parse_initial_window y w = Ok n ->
  0 <= n /\ (y = [] \/ n < Z.of_nat (length y)).
Proof.
  destruct w as [| z | q |];
    [rewrite parse_missing | rewrite parse_integer | rewrite parse_fraction
    | discriminate];
    unfold window_rule; set (len := Z.of_nat (length y)).
  - destruct (10 <? len) eqn:H; [| discriminate]. apply Z.ltb_lt in H.
    intros [= <-]. split; [lia |]. right.
    assert (len / 10 < len) by (apply Z.div_lt; lia). lia.
  - destruct (0 <? z) eqn:H0; destruct (z <? len) eqn:H1; try discriminate.
    apply Z.ltb_lt in H0, H1. intros [= <-]. split; [lia | right; lia].
  - unfold Qltb.
    destruct (Qle_bool q 0) eqn:H0; [discriminate |].
    destruct (Qle_bool 1 q) eqn:H1; [discriminate |]. cbn [andb negb].
    apply Qle_bool_false_lt in H0, H1.
    intro E.
    assert (En : n = Qfloor (q * inject_Z len)) by congruence.
    clear E. subst n.
    assert (Hlen : (0 <= inject_Z len)%Q).
    { change 0%Q with (inject_Z 0). rewrite <- Zle_Qle. subst len. lia. }
    split.
    + apply Qfloor_nonneg. nra.
    + destruct y as [| p y]; [left; reflexivity | right].
      assert (Hpos : (1 <= inject_Z len)%Q).
      { change 1%Q with (inject_Z 1). rewrite <- Zle_Qle. subst len.
        simpl length. lia. }
      apply Z.lt_nge. intro Hge.
      rewrite Zle_Qle in Hge.
      pose proof (Qfloor_le (q * inject_Z len)) as Hf.
      nra.
Qed.

(** ** Indexes and frames *)

Lemma fold_left_max_init (r : Index) (a : Z) : a <= fold_left Z.max r a.
Proof.
  revert a. induction r as [| d r IH]; simpl; intro a; [lia |].
  specialize (IH (Z.max a d)). lia.
Qed.

Lemma fold_left_max_ge (r : Index) (l x : Z) :
  x = l \/ In x r -> x <= fold_left Z.max r l.
Proof.
  revert l. induction r as [| b r IH]; simpl; intros l [H | H].
  - lia.
  - contradiction.
  - pose proof (fold_left_max_init r (Z.max l b)). lia.
  - destruct H as [-> | H].
    + pose proof (fold_left_max_init r (Z.max l x)). lia.
    + apply IH. right. exact H.
Qed.

Lemma fold_left_max_in (r : Index) (l : Z) :
  fold_left Z.max r l = l \/ In (fold_left Z.max r l) r.
Proof.
  revert l. induction r as [| b r IH]; simpl; intro l; [left; reflexivity |].
  destruct (IH (Z.max l b)) as [E | Hin].
  - rewrite E. destruct (Z.max_spec l b) as [[_ ->] | [_ ->]]; auto.
  - right. right. exact Hin.
Qed.

Lemma index_max_ge (ix : Index) (x : Z) :
  In x ix -> exists m, index_max ix = Some m /\ x <= m.
Proof.
  destruct ix as [| l r]; simpl; [contradiction |].
  intro H. eexists. split; [reflexivity |].
  apply fold_left_max_ge. destruct H; auto.
Qed.

(** The maximum of an increasing index lies in each of its non-empty
    suffixes. *)
Lemma increasing_max_in_suffix (ix : Index) (n : nat) :
  increasing ix = true -> (n < length ix)%nat ->
  exists m, index_max ix = Some m /\ In m (skipn n ix).
Proof.
  revert n. induction ix as [| a r IH]; intros n Hinc Hn; [simpl in Hn; lia |].
  destruct n as [| n].
  - exists (fold_left Z.max r a). split; [reflexivity |].
    simpl. destruct (fold_left_max_in r a); auto.
  - destruct r as [| b r']; [simpl in Hn; lia |].
    simpl in Hinc. apply andb_true_iff in Hinc as [Hab Hinc].
    apply Z.ltb_lt in Hab.
    destruct (IH n Hinc ltac:(simpl in *; lia)) as (m & Hm & Hin).
    exists m. split; [| exact Hin].
    simpl in Hm |- *. replace (Z.max a b) with b by lia. exact Hm.
Qed.

Lemma set_rows_length (idx : Index) (vals : list (list float)) (id : Z)
  (row : list float) :
  length (set_rows idx vals id row) = Nat.min (length idx) (length vals).
Proof.
  revert vals. induction idx as [| l idx IH]; intros [| r vals]; simpl; auto.
Qed.

Lemma loc_set_row_index (df : DataFrame) (id : Z) (s : Series) :
  incl (df_index df) (df_index (loc_set_row df id s)).
Proof.
  unfold loc_set_row. destruct (mem id (df_index df)); simpl.
  - apply incl_refl.
  - apply incl_appl, incl_refl.
Qed.

Lemma fold_rows_index (l : list (Z * Series)) (df : DataFrame) :
  incl (df_index df)
       (df_index (fold_left (fun rm ir => loc_set_row rm (fst ir) (snd ir))
                            l df)).
Proof.
  revert df. induction l as [| ir l IH]; simpl; intro df; [apply incl_refl |].
  eapply incl_tran; [apply loc_set_row_index | apply IH].
Qed.

Lemma loc_set_block_index (df old rm : DataFrame) :
  loc_set_block df old = Ok rm -> df_index rm = df_index df.
Proof.
  unfold loc_set_block. destruct (_ && _); [| discriminate].
  intros [= <-]. reflexivity.
Qed.

Lemma series_index_skipn (y : Series) (k : nat) :
  series_index (skipn k y) = skipn k (series_index y).
Proof.
  unfold series_index. symmetry. apply skipn_map.
Qed.

(** Rows are keyed by anchor: writing two rows with different labels, both in
    the index, gives the same frame in either order. *)
Lemma set_rows_comm (idx : Index) (vals : list (list float)) (a b : Z)
  (ra rb : list float) :
  a <> b ->
  set_rows idx (set_rows idx vals a ra) b rb
  = set_rows idx (set_rows idx vals b rb) a ra.
Proof.
  intro Hab. revert vals.
  induction idx as [| l idx IH]; intros [| r vals]; simpl; try reflexivity.
  rewrite IH. f_equal.
  destruct (l =? a) eqn:Ea; destruct (l =? b) eqn:Eb; try reflexivity.
  apply Z.eqb_eq in Ea, Eb. congruence.
Qed.

Lemma loc_set_row_comm (df : DataFrame) (a b : Z) (s t : Series) :
  a <> b ->
  mem a (df_index df) = true -> mem b (df_index df) = true ->
  loc_set_row (loc_set_row df a s) b t = loc_set_row (loc_set_row df b t) a s.
Proof.
  intros Hab Ha Hb. unfold loc_set_row.
  rewrite Ha, Hb. simpl. rewrite Ha, Hb.
  f_equal. apply set_rows_comm. congruence.
Qed.

Lemma loc_set_row_index_eq (df : DataFrame) (id : Z) (s : Series) :
  mem id (df_index df) = true ->
  df_index (loc_set_row df id s) = df_index df.
Proof.
  intro H. unfold loc_set_row. rewrite H. reflexivity.
Qed.

(** The frame written does not depend on the order in which the
    (anchor, row) pairs arrive. *)
Lemma write_order_irrelevant (l l' : list (Z * Series)) :
  Permutation l l' ->
  forall df : DataFrame,
    NoDup (map fst l) ->
    (forall ir, In ir l -> mem (fst ir) (df_index df) = true) ->
    fold_left (fun rm ir => loc_set_row rm (fst ir) (snd ir)) l df
    = fold_left (fun rm ir => loc_set_row rm (fst ir) (snd ir)) l' df.
Proof.
  induction 1 as [| x l l' Hp IH | x y l | l l' l'' Hp1 IH1 Hp2 IH2];
    intros df Hnd Hin.
  - reflexivity.
  - simpl. apply IH.
    + inversion Hnd; assumption.
    + intros ir Hir. rewrite loc_set_row_index_eq.
      * apply Hin. right. exact Hir.
      * apply Hin. left. reflexivity.
  - simpl. f_equal. apply loc_set_row_comm.
    + simpl in Hnd. inversion Hnd as [| ? ? Hni _]; subst.
      intro E. apply Hni. left. symmetry. exact E.
    + apply Hin. left. reflexivity.
    + apply Hin. right. left. reflexivity.
  - rewrite IH1 by assumption. apply IH2.
    + eapply Permutation_NoDup; [| exact Hnd].
      apply Permutation_map. exact Hp1.
    + intros ir Hir. apply Hin.
      eapply Permutation_in; [apply Permutation_sym; exact Hp1 | exact Hir].
Qed.

Lemma bind_ok {A B} (m : M A) (k : A -> M B) (ws : list warning) (b : B) :
  bind m k = (ws, Ok b) ->
  exists ws1 a ws2, m = (ws1, Ok a) /\ k a = (ws2, Ok b) /\ ws = ws1 ++ ws2.
Proof.
  unfold bind. destruct m as [ws1 [a |]]; [| discriminate].
  destruct (k a) as [ws2 r] eqn:Hk. intros [= <- ->].
  exists ws1, a, ws2. auto.
Qed.

Lemma lift_ok {A} (r : result A) (ws : list warning) (a : A) :
  lift r = (ws, Ok a) -> r = Ok a /\ ws = [].
Proof.
  unfold lift. intros [= <- ->]. auto.
Qed.

(** ** Building and updating the residual matrix *)

Section BuilderProperties.

Variable estimator : Type.
Variable clone : estimator -> estimator.
Variable est_fit :
  estimator -> Series -> Exog -> option ForecastingHorizon -> result estimator.
Variable est_predict_residuals :
  estimator -> Series -> Exog -> result Series.
Variable est_predict : estimator -> Exog -> Z -> Q.
Variable est_update :
  estimator -> Series -> Exog -> bool -> result estimator.
Variable RandomState : Type.
Variable pd_sample : RandomState -> Q -> Index -> result Index.

Local Abbreviation compute :=
  (_compute_sliding_residuals clone est_fit est_predict_residuals pd_sample).
Local Abbreviation matrix_row :=
  (_get_residuals_matrix_row est_fit est_predict_residuals).
Local Abbreviation update :=
  (_update clone est_fit est_predict_residuals est_update pd_sample).
Local Abbreviation fit_ :=
  (fit clone est_fit est_predict_residuals pd_sample).
Local Abbreviation predict_interval :=
  (_predict_interval clone est_fit est_predict_residuals est_predict pd_sample).

(** After an indexing failure the worker warns and then fails on its unbound
    local. *)
Lemma matrix_row_index_failure (f f' : estimator) (y : Series) (X : Exog)
  (id : Z) :
  est_fit f (get_slice y None (Some id)) (get_slice_X X None (Some id))
    (Some (Absolute (series_index (get_slice y (Some id) None)))) = Ok f' ->
  est_predict_residuals f' (get_slice y (Some id) None)
    (get_slice_X X (Some id) None) = Raise IndexError ->
  matrix_row f y X id
  = ([CouldNotPredict (length (get_slice y None (Some id)))],
     Raise UnboundLocalError).
Proof.
  intros Hfit Hres. unfold _get_residuals_matrix_row.
  rewrite Hfit. cbn. rewrite Hres. reflexivity.
Qed.

(** The frame a build returns has a row for every label past the window. *)
Lemma compute_index (self : Wrapper estimator) (rng : RandomState)
  (y : Series) (X : Exog) (f : estimator) (iw : window_spec) (sf : option Q)
  (upd : bool) (ws : list warning) (rm : DataFrame) :
  compute self rng y X f iw sf upd = (ws, Ok rm) ->
  exists n, _parse_initial_window y iw = Ok n
            /\ incl (series_index (iloc_from y n)) (df_index rm).
Proof.
  unfold _compute_sliding_residuals. intro H.
  apply bind_ok in H as (ws1 & n & ws2 & Hn & H & _).
  apply lift_ok in Hn as [Hn _].
  exists n. split; [exact Hn |].
  apply bind_ok in H as (ws3 & st & ws4 & Hst & H & _).
  apply bind_ok in H as (ws5 & ids & ws6 & _ & H & _).
  apply bind_ok in H as (ws7 & rows & ws8 & _ & H & _).
  injection H as _ <-.
  unfold write_rows.
  eapply incl_tran; [| apply fold_rows_index].
  destruct upd; [destruct (residuals_matrix_ self) as [old |] |].
  - apply bind_ok in Hst as (wa & rm0 & wb & Hrm0 & Hst & _).
    apply lift_ok in Hrm0 as [Hrm0 _].
    injection Hst as _ <-. simpl.
    rewrite (loc_set_block_index _ _ Hrm0). simpl. apply incl_refl.
  - injection Hst as _ <-. simpl. apply incl_refl.
  - injection Hst as _ <-. simpl. apply incl_refl.
Qed.

(** Once rebuilt for [y], the matrix reaches the last label of [y]. *)
Lemma compute_reaches_last (self : Wrapper estimator) (rng : RandomState)
  (y : Series) (X : Exog) (f : estimator) (iw : window_spec) (sf : option Q)
  (upd : bool) (ws : list warning) (rm : DataFrame) :
  increasing (series_index y) = true ->
  compute self rng y X f iw sf upd = (ws, Ok rm) ->
  max_lt (index_max (df_index rm)) (index_max (series_index y)) = false.
Proof.
  intros Hinc H.
  destruct (compute_index _ _ _ _ _ _ _ _ H) as (n & Hn & Hincl).
  destruct (parse_ok_bounds _ _ Hn) as [Hn0 [-> | Hlt]].
  - simpl. destruct (index_max _); reflexivity.
  - unfold iloc_from in Hincl.
    replace (n <? 0) with false in Hincl by (symmetry; apply Z.ltb_ge; lia).
    rewrite series_index_skipn in Hincl.
    destruct (@increasing_max_in_suffix (series_index y) (Z.to_nat n) Hinc)
      as (m & Hm & Hin).
    { unfold series_index. rewrite length_map. lia. }
    destruct (index_max_ge _ _ (Hincl _ Hin)) as (m' & Hm' & Hle).
    rewrite Hm, Hm'. simpl. apply Z.ltb_ge. exact Hle.
Qed.

(** C8: [update] is idempotent on the residual matrix: after a call that
    returned, a second call with the same data (an increasing time index)
    leaves [residuals_matrix_] as the first call left it, whatever the random
    state. *)
Theorem update_idempotent (self self1 : Wrapper estimator)
  (rng1 rng2 : RandomState) (y : Series) (X : Exog) (update_params : bool)
  (ws1 : list warning) :
  increasing (series_index y) = true ->
  update self rng1 y X update_params = (self1, (ws1, Ok tt)) ->
  residuals_matrix_ (fst (update self1 rng2 y X update_params))
  = residuals_matrix_ self1.
Proof.
  intros Hinc H1.
  assert (Hguard : exists f1 rm1,
             forecaster_ self1 = Some f1
             /\ residuals_matrix_ self1 = Some rm1
             /\ max_lt (index_max (df_index rm1))
                       (index_max (series_index y)) = false).
  { unfold _update in H1.
    destruct (forecaster_ self) as [f0 |]; cbn [getattr] in H1;
      [| discriminate].
    destruct (est_update f0 y X update_params) as [f1 |]; [| discriminate].
    cbn [residuals_matrix_ set_forecaster_] in H1.
    destruct (residuals_matrix_ self) as [old |] eqn:Hold; cbn [getattr] in H1;
      [| discriminate].
    destruct (max_lt _ _) eqn:Hg.
    - destruct (_compute_sliding_residuals _ _ _ _ _ _ _ _ _ _ _ _)
        as [ws [rm |]] eqn:Hc; [| discriminate].
      injection H1 as <- _.
      exists f1, rm. repeat split.
      eapply compute_reaches_last; eassumption.
    - injection H1 as <- _.
      exists f1, old. cbn. auto. }
  destruct Hguard as (f1 & rm1 & Hf1 & Hrm1 & Hg).
  unfold _update. rewrite Hf1. cbn [getattr].
  destruct (est_update f1 y X update_params) as [f2 |]; [| reflexivity].
  cbn [residuals_matrix_ set_forecaster_]. rewrite Hrm1. cbn [getattr].
  rewrite Hg. cbn. exact Hrm1.
Qed.

(** C10: the constructor accepts every [sample_frac] unchecked, and a falsy
    one (zero, in any float form) builds the matrix exactly as an absent one
    does: no sampling, no error of its own. *)
Theorem falsy_sample_frac_is_absent (f : estimator) (m : method_arg)
  (iw : window_spec) (v : bool) (nj : option Z) (sf : option Q)
  (self : Wrapper estimator) (rng : RandomState) (y : Series) (X : Exog)
  (fc : estimator) (iw' : window_spec) (upd : bool) (q : Q) :
  (q == 0)%Q ->
  is_ok (__init__ f m iw sf v nj) = is_ok (__init__ f m iw None v nj)
  /\ (forall w, __init__ f m iw sf v nj = Ok w -> sample_frac w = sf)
  /\ compute self rng y X fc iw' (Some q) upd
     = compute self rng y X fc iw' None upd.
Proof.
  intro Hq. repeat split.
  - unfold __init__. destruct m; [| reflexivity].
    destruct (negb _); reflexivity.
  - intro w. unfold __init__. destruct m; [| discriminate].
    destruct (negb _); [discriminate |]. intros [= <-]. reflexivity.
  - unfold _compute_sliding_residuals, truthy.
    apply Qeq_bool_iff in Hq. rewrite Hq. reflexivity.
Qed.

(** C4 (as amended): the constructor never inspects [initial_window]: with
    an allowed method it succeeds for every value.  A window that is invalid
    for [y] is reported, with the parser's error, when the residual matrix is
    built: by [fit] when a horizon is passed, and otherwise, after a [fit]
    that succeeds, by every [predict_interval]. *)
Theorem window_checked_when_matrix_built (f : estimator) (m : string)
  (iw : window_spec) (sf : option Q) (v : bool) (nj : option Z)
  (rng : RandomState) (y : Series) (X : Exog) (fh : ForecastingHorizon)
  (e : exn) :
  In m ALLOWED_METHODS ->
  _parse_initial_window y iw = Raise e ->
  (forall ofh, is_ok (est_fit (clone f) y X ofh) = true) ->
  exists w,
    __init__ f (MStr m) iw sf v nj = Ok w
    /\ snd (snd (fit_ w rng y X (Some fh))) = Raise e
    /\ exists w',
         fit_ w rng y X None = (w', ([], Ok tt))
         /\ forall rng' fh' X' cov,
              snd (predict_interval w' rng' fh' X' cov) = Raise e.
Proof.
  intros Hm Hparse Hfit.
  assert (Ha : existsb (String.eqb m) ALLOWED_METHODS = true).
  { apply existsb_exists. exists m. split; [exact Hm | apply String.eqb_refl]. }
  eexists. split.
  { unfold __init__. rewrite Ha. reflexivity. }
  split.
  - unfold fit, _fit. cbn -[_compute_sliding_residuals].
    pose proof (Hfit (Some fh)) as Hf.
    destruct (est_fit (clone f) y X (Some fh)); [| discriminate].
    unfold _compute_sliding_residuals. cbn -[_parse_initial_window].
    rewrite Hparse. reflexivity.
  - unfold fit, _fit. cbn -[_compute_sliding_residuals].
    pose proof (Hfit None) as Hf.
    destruct (est_fit (clone f) y X None) as [f' |]; [| discriminate].
    eexists. split; [reflexivity |].
    intros rng' fh' X' cov.
    unfold _predict_interval, _compute_sliding_residuals.
    cbn -[_parse_initial_window].
    rewrite Hparse. reflexivity.
Qed.

(** C5 (as amended): the build is a function of its arguments and of the
    anchors drawn.  With [sample_frac] unset or zero nothing is drawn and two
    runs on identical inputs return the same matrix (and the same warnings)
    whatever the random states; with [sample_frac] set the same holds when
    the two random states yield the same draws.  The generator is not
    seeded by the code. *)
Theorem build_deterministic_given_draw (self : Wrapper estimator)
  (rng1 rng2 : RandomState) (y : Series) (X : Exog) (f : estimator)
  (iw : window_spec) (sf : option Q) (upd : bool) :
  truthy sf = false
  \/ (forall frac ix, pd_sample rng1 frac ix = pd_sample rng2 frac ix) ->
  compute self rng1 y X f iw sf upd = compute self rng2 y X f iw sf upd.
Proof.
  intros [Hf | Hs]; unfold _compute_sliding_residuals.
  - rewrite Hf. reflexivity.
  - destruct (truthy sf); [| reflexivity].
    destruct sf as [frac |]; [| reflexivity].
    destruct (_parse_initial_window y iw) as [n |]; [| reflexivity].
    cbn [lift bind]. 
    destruct (match upd with true => _ | false => _ end) as [ws0 [st |]];
      [| reflexivity].
    cbn [bind]. rewrite Hs. reflexivity.
Qed.

End BuilderProperties.

(** ** The builder on concrete inputs *)

(** C3 (failing input): the forecaster cannot predict the ten steps asked at
    the first anchor of [0, 1, ..., 19]; the worker warns, and then the build
    ends with [UnboundLocalError] instead of recording a row of NaN. *)
Theorem index_failure_aborts_build :
  naive_compute (naive_wrapper "empirical" WNone None) 0%nat (ramp 20) None
    short_sighted WNone None false
  = ([CouldNotPredict 10], Raise UnboundLocalError).
Proof.
  vm_compute. reflexivity.
Qed.

(** C4 (counterexample): [initial_window = 5000] is accepted by the
    constructor; it is [fit], on a series of 20 points, that raises. *)
Lemma invalid_window_accepted_at_construction :
  __init__ (mkNaive None None) (MStr "empirical") (WInt 5000) None false None
  = Ok (naive_wrapper "empirical" (WInt 5000) None)
  /\ is_ok (__init__ (mkNaive None None) (MStr "empirical") WOther None false
              None) = true
  /\ is_ok (__init__ (mkNaive None None) (MStr "empirical") (WFloat (3 # 2))
              None false None) = true
  /\ snd (snd (naive_fit_wrapper (naive_wrapper "empirical" (WInt 5000) None)
                 0%nat (ramp 20) None (Some (Relative [1]))))
     = Raise ValueError.
Proof.
  repeat split; vm_compute; reflexivity.
Qed.

Lemma window_checked_when_matrix_built_witness :
  exists w,
    __init__ (mkNaive None None) (MStr "conformal") (WInt 5000) (Some (1 # 2))
      false None = Ok w
    /\ snd (snd (naive_fit_wrapper w 0%nat (ramp 20) None (Some (Relative [1]))))
       = Raise ValueError
    /\ exists w',
         naive_fit_wrapper w 0%nat (ramp 20) None None = (w', ([], Ok tt))
         /\ forall rng' fh' X' cov,
              snd (naive_predict_interval w' rng' fh' X' cov) = Raise ValueError.
Proof.
  apply (@window_checked_when_matrix_built naive naive_clone naive_fit
           naive_predict_residuals naive_predict nat rot_sample
           (mkNaive None None) "conformal" (WInt 5000) (Some (1 # 2)%Q) false
           None 0%nat (ramp 20) None (Relative [1]) ValueError).
  - simpl. tauto.
  - vm_compute. reflexivity.
  - intro ofh. reflexivity.
Defined.

(** C5 (counterexample): with [sample_frac = 0.5] two builds on identical
    inputs, taken at two states of the random generator, return different
    matrices. *)
Lemma sampled_build_depends_on_random_state :
  exists m1 m2,
    naive_compute (naive_wrapper "empirical" WNone (Some (1 # 2)%Q)) 0%nat
      (ramp 20) None (mkNaive None None) WNone (Some (1 # 2)%Q) false
    = ([], Ok m1)
    /\ naive_compute (naive_wrapper "empirical" WNone (Some (1 # 2)%Q)) 1%nat
         (ramp 20) None (mkNaive None None) WNone (Some (1 # 2)%Q) false
       = ([], Ok m2)
    /\ df_at m1 10 10 = Some 1%Q
    /\ df_at m2 10 10 = NaN
    /\ m1 <> m2.
Proof.
  do 2 eexists.
  split; [vm_compute; reflexivity |].
  split; [vm_compute; reflexivity |].
  split; [vm_compute; reflexivity |].
  split; [vm_compute; reflexivity |].
  intro E. apply (f_equal (fun m => df_at m 10 10)) in E.
  vm_compute in E. discriminate.
Qed.

Lemma build_deterministic_given_draw_witness :
  naive_compute (naive_wrapper "empirical" WNone (Some 0%Q)) 0%nat (ramp 20)
    None (mkNaive None None) WNone (Some 0%Q) false
  = naive_compute (naive_wrapper "empirical" WNone (Some 0%Q)) 1%nat (ramp 20)
      None (mkNaive None None) WNone (Some 0%Q) false.
Proof.
  apply (@build_deterministic_given_draw naive naive_clone naive_fit
           naive_predict_residuals nat rot_sample).
  left. reflexivity.
Defined.

Lemma update_idempotent_witness :
  increasing (series_index (ramp 20)) = true
  /\ snd (snd (naive_update_wrapper fitted_ramp15 0%nat (ramp 20) None true))
     = Ok tt
  /\ residuals_matrix_
       (fst (naive_update_wrapper
               (fst (naive_update_wrapper fitted_ramp15 0%nat (ramp 20) None
                       true))
               1%nat (ramp 20) None true))
     = residuals_matrix_
         (fst (naive_update_wrapper fitted_ramp15 0%nat (ramp 20) None true)).
Proof.
  split; [reflexivity |].
  split; [vm_compute; reflexivity |].
  eapply (@update_idempotent naive naive_clone naive_fit
            naive_predict_residuals naive_update nat rot_sample
            fitted_ramp15 _ 0%nat 1%nat (ramp 20) None true).
  - reflexivity.
  - vm_compute. reflexivity.
Defined.

Lemma falsy_sample_frac_is_absent_witness :
  (0 # 5 == 0)%Q
  /\ naive_compute (naive_wrapper "empirical" WNone (Some (0 # 5)%Q)) 0%nat
       (ramp 20) None (mkNaive None None) WNone (Some (0 # 5)%Q) false
     = naive_compute (naive_wrapper "empirical" WNone (Some (0 # 5)%Q)) 0%nat
         (ramp 20) None (mkNaive None None) WNone None false.
Proof.
  split; [reflexivity |].
  apply (@falsy_sample_frac_is_absent naive naive_clone naive_fit
           naive_predict_residuals nat rot_sample
           (mkNaive None None) (MStr "empirical") WNone false None
           (Some (0 # 5)%Q)
           (naive_wrapper "empirical" WNone (Some (0 # 5)%Q)) 0%nat (ramp 20)
           None (mkNaive None None) WNone false (0 # 5)%Q).
  reflexivity.
Defined.

(** * Further properties of the quantile engine and of the interval table *)

Local Open Scope Q_scope.

(** ** Lengths *)

Lemma coverage_twice_length (c : list Q) :
  length (coverage_twice c) = (2 * length c)%nat.
Proof.
  unfold coverage_twice. induction c as [| x c IH]; simpl; [reflexivity |].
  rewrite IH. lia.
Qed.

Lemma flat_map_pair_length {A B} (f g : A -> B) (c : list A) :
  length (flat_map (fun x => [f x; g x]) c) = (2 * length c)%nat.
Proof.
  induction c as [| x c IH]; simpl; [reflexivity |]. rewrite IH. lia.
Qed.

Lemma np_repeat2_length (c : list Q) :
  length (np_repeat2 c) = (2 * length c)%nat.
Proof.
  rewrite np_repeat2_twice. apply coverage_twice_length.
Qed.

Lemma np_quantile_length (a q : list Q) (r : list float) :
  np_quantile a q = Ok r -> length r = length q.
Proof.
  unfold np_quantile. destruct (negb _); [discriminate |].
  destruct a; intros [= <-]; apply length_map.
Qed.

Lemma col_signs_length (m : string) (c : list Q) :
  length (col_signs m c) = (2 * length c)%nat.
Proof.
  unfold col_signs. destruct (existsb _ _); apply flat_map_pair_length.
Qed.

Lemma add_point_length (yp : Q) (signs : list Q) (row : list float) :
  length (add_point yp signs row) = Nat.min (length signs) (length row).
Proof.
  revert row. induction signs as [| s signs IH]; intros [| v row]; simpl; auto.
Qed.

(** The branch of the loop body for "empirical". *)
Lemma pred_int_row_empirical (R : list (list float)) (h : Z) (c : list Q)
  (H : nat) :
  pred_int_row "empirical" R h c H
  = np_quantile (lag_residuals R h)
      (flat_map (fun x => [(1 # 2) + - (1 # 2) * x; (1 # 2) + (1 # 2) * x]) c).
Proof.
  unfold pred_int_row, lag_residuals. cbn [String.eqb Ascii.eqb Bool.eqb].
  rewrite tile_times_repeat, map_flat_map_pair. reflexivity.
Qed.

(** A row that was computed has a lower and an upper cell per coverage,
    whatever the method. *)
Lemma pred_int_row_length (m : string) (R : list (list float)) (h : Z)
  (c : list Q) (H : nat) (raw : list float) :
  pred_int_row m R h c H = Ok raw -> length raw = (2 * length c)%nat.
Proof.
  unfold pred_int_row.
  destruct (m =? "empirical_residual")%string;
    [| destruct (m =? "conformal_bonferroni")%string;
       [| destruct (m =? "conformal")%string;
          [| destruct (m =? "empirical")%string; [| discriminate]]]];
    intro Hq; apply np_quantile_length in Hq; rewrite Hq;
    rewrite ?length_map; try apply np_repeat2_length.
  rewrite tile_times_repeat. apply flat_map_pair_length.
Qed.

Lemma map_result_length {A B} (f : A -> result B) (l : list A) (rs : list B) :
  map_result f l = Ok rs -> length rs = length l.
Proof.
  revert rs. induction l as [| x l IH]; simpl; intros rs.
  - intros [= <-]. reflexivity.
  - destruct (f x); [| discriminate].
    destruct (map_result f l) as [bs |]; [| discriminate].
    intros [= <-]. simpl. f_equal. apply IH. reflexivity.
Qed.


Lemma to_absolute_length (fh : ForecastingHorizon) (cutoff : Z) :
  length (to_absolute fh cutoff) = fh_len fh.
Proof.
  destruct fh; simpl; [apply length_map | reflexivity].
Qed.

Lemma map_fst_combine3 {A B C D} (g : B -> C -> D) (la : list A) (lb : list B)
  (lc : list C) :
  length lb = length la -> length lc = length la ->
  map fst (map (fun r => (fst (fst r), g (snd (fst r)) (snd r)))
               (combine (combine la lb) lc)) = la.
Proof.
  revert lb lc. induction la as [| a la IH]; intros [| b lb] [| c lc];
    simpl; try discriminate; intros Hb Hc; [reflexivity |].
  f_equal. apply IH; congruence.
Qed.

(** ** Probabilities asked of [np.quantile] *)





(** ** Order statistics, continued *)

Lemma np_sort_In (x : Q) (l : list Q) : In x (np_sort l) -> In x l.
Proof.
  induction l as [| y l IH]; simpl; [auto |].
  intro H. apply insert_sorted_In in H as [-> | H]; auto.
Qed.

Lemma np_sort_nonempty (l : list Q) : l <> [] -> np_sort l <> [].
Proof.
  intros Hne E. apply Hne. apply (f_equal (@length Q)) in E.
  rewrite np_sort_length in E. destruct l; [reflexivity | discriminate].
Qed.


(** Equal probabilities have equal quantiles. *)
Lemma quantile_sorted_Qeq (a : list Q) (p p' : Q) :
  StronglySorted Qle a -> a <> [] -> 0 <= p -> p <= 1 -> p == p' ->
  quantile_sorted a p == quantile_sorted a p'.
Proof.
  intros Hs Hne H0 H1 E.
  apply Qle_antisym; apply quantile_sorted_mono; auto; lra.
Qed.

Lemma half_width_nonneg (m : string) (R : list (list float)) (h : Z) (H : nat)
  (c : Q) :
  np_abs (lag_residuals R h) <> [] ->
  0 <= quantile_level m H c -> quantile_level m H c <= 1 ->
  0 <= half_width m R h H c.
Proof.
  intros Hne H0 H1. unfold half_width.
  apply quantile_sorted_nonneg; auto using np_sort_sorted, np_sort_nonempty.
  apply Forall_forall. intros x Hx. apply np_sort_In in Hx.
  pose proof (np_abs_nonneg (lag_residuals R h)) as Hall.
  rewrite Forall_forall in Hall. auto.
Qed.


(** ** Rows of the interval table for "empirical" *)

Lemma add_point_empirical (yp : Q) (F g1 g2 : Q -> Q) (c : list Q) :
  add_point yp (col_signs "empirical" c)
    (map (fun p => Some (F p)) (flat_map (fun x => [g1 x; g2 x]) c))
  = flat_map (fun x => [Some (yp + 1 * F (g1 x)); Some (yp + 1 * F (g2 x))]) c.
Proof.
  unfold col_signs. cbn [existsb ABS_RESIDUAL_BASED String.eqb Ascii.eqb
                         Bool.eqb orb].
  induction c as [| x c IH]; simpl; [reflexivity |].
  simpl in IH. rewrite IH. reflexivity.
Qed.

Lemma empirical_row_entries (R : list (list float)) (h : Z) (cov : list Q)
  (H : nat) (raw : list float) (yp : Q) (i : nat) (l u : Q) :
  pred_int_row "empirical" R h cov H = Ok raw ->
  nth_error (add_point yp (col_signs "empirical" cov) raw) (2 * i)
  = Some (Some l) ->
  nth_error (add_point yp (col_signs "empirical" cov) raw) (2 * i + 1)
  = Some (Some u) ->
  exists c,
    nth_error cov i = Some c
    /\ lag_residuals R h <> []
    /\ 0 <= (1 # 2) + - (1 # 2) * c /\ (1 # 2) + (1 # 2) * c <= 1
    /\ l = yp + 1 * quantile_sorted (np_sort (lag_residuals R h))
                      ((1 # 2) + - (1 # 2) * c)
    /\ u = yp + 1 * quantile_sorted (np_sort (lag_residuals R h))
                      ((1 # 2) + (1 # 2) * c).
Proof.
  intros Hrow Hl Hu.
  rewrite pred_int_row_empirical in Hrow.
  unfold np_quantile in Hrow.
  destruct (quantile_is_valid _) eqn:Hv; [| discriminate]. simpl in Hrow.
  set (F := quantile_sorted (np_sort (lag_residuals R h))).
  assert (Hraw : lag_residuals R h <> []
                 /\ raw = map (fun p => Some (F p))
                             (flat_map (fun x => [(1 # 2) + - (1 # 2) * x;
                                                  (1 # 2) + (1 # 2) * x]) cov)).
  { subst F. remember (np_sort (lag_residuals R h)) as srt.
    destruct (lag_residuals R h) as [| a0 s].
    - injection Hrow as <-. exfalso. exact (add_point_nan _ _ _ _ Hl).
    - injection Hrow as <-. split; [discriminate | reflexivity]. }
  destruct Hraw as [Hne ->].
  rewrite add_point_empirical in Hl, Hu.
  destruct (nth_error_flat_map_pair
              (fun x => Some (yp + 1 * F ((1 # 2) + - (1 # 2) * x)))
              (fun x => Some (yp + 1 * F ((1 # 2) + (1 # 2) * x)))
              cov i) as [E1 E2].
  cbv beta in E1, E2. unfold float in *. rewrite E1 in Hl. rewrite E2 in Hu.
  destruct (nth_error cov i) as [c |] eqn:Hc; [| discriminate].
  cbn [option_map] in Hl, Hu. injection Hl as <-. injection Hu as <-.
  exists c.
  unfold quantile_is_valid in Hv. rewrite forallb_forall in Hv.
  assert (Hin : forall p, In p [(1 # 2) + - (1 # 2) * c; (1 # 2) + (1 # 2) * c]
                          -> 0 <= p /\ p <= 1).
  { intros p Hp.
    assert (Hp' : In p (flat_map (fun x => [(1 # 2) + - (1 # 2) * x;
                                            (1 # 2) + (1 # 2) * x]) cov)).
    { apply in_flat_map. exists c. split; [eapply nth_error_In; eauto | exact Hp]. }
    specialize (Hv _ Hp'). apply andb_true_iff in Hv as [Ha Hb].
    apply Qle_bool_iff in Ha, Hb. auto. }
  destruct (Hin _ (or_introl eq_refl)) as [Ha _].
  destruct (Hin _ (or_intror (or_introl eq_refl))) as [_ Hb].
  repeat split; auto.
Qed.

(** ** The interval table, continued *)

Section IntervalTable.

Variable estimator : Type.
Variable clone : estimator -> estimator.
Variable est_fit :
  estimator -> Series -> Exog -> option ForecastingHorizon -> result estimator.
Variable est_predict_residuals :
  estimator -> Series -> Exog -> result Series.
Variable est_predict : estimator -> Exog -> Z -> Q.
Variable RandomState : Type.
Variable pd_sample : RandomState -> Q -> Index -> result Index.

Local Abbreviation predict_interval :=
  (_predict_interval clone est_fit est_predict_residuals est_predict pd_sample).
Local Abbreviation matrix_of :=
  (interval_matrix clone est_fit est_predict_residuals pd_sample).
Local Abbreviation predict := (_predict est_predict).

Lemma predict_length (self : Wrapper estimator) (fh : ForecastingHorizon)
  (X : Exog) (y_pred : list Q) :
  predict self fh X = Ok y_pred -> length y_pred = fh_len fh.
Proof.
  unfold _predict. destruct (getattr _); [| discriminate].
  intros [= <-]. rewrite length_map. apply to_relative_length.
Qed.

(** X1: a table that [_predict_interval] returns has one row per entry of the
    horizon, labelled by the absolute horizon in its order, and every row has
    a lower and an upper cell for each coverage. *)
Theorem interval_table_shape (self : Wrapper estimator) (rng : RandomState)
  (fh : ForecastingHorizon) (X : Exog) (cov : list Q) (ws : list warning)
  (t : Table) :
  predict_interval self rng fh X cov = (ws, Ok t) ->
  map fst t = to_absolute fh (cutoff self)
  /\ Forall (fun r => length (snd r) = (2 * length cov)%nat) t.
Proof.
  intro Hcall. split.
  - destruct (predict_interval_inv _ _ _ _ _ _ _ _ _ _ Hcall)
      as (R & y_pred & rows & _ & Hp & Hrows & ->).
    apply map_fst_combine3
      with (g := fun yp raw => add_point yp (col_signs (method self) cov) raw).
    + rewrite (predict_length _ _ _ Hp). symmetry. apply to_absolute_length.
    + rewrite (map_result_length _ _ Hrows), to_relative_length.
      symmetry. apply to_absolute_length.
  - apply Forall_forall. intros [lbl row] Hin.
    apply In_nth_error in Hin as [k Hk].
    destruct (predict_interval_row _ _ _ _ _ _ _ _ _ _ _ Hcall Hk)
      as (R & y_pred & yp & offset & raw & _ & _ & _ & _ & Hraw & ->).
    simpl. rewrite add_point_length, col_signs_length.
    rewrite (pred_int_row_length _ _ _ _ _ Hraw). lia.
Qed.


(** X3: for the three absolute-residual methods every interval contains the
    point forecast: lower <= forecast <= upper. *)
Theorem interval_contains_forecast (self : Wrapper estimator)
  (rng : RandomState) (fh : ForecastingHorizon) (X : Exog) (cov : list Q)
  (ws : list warning) (t : Table) (k : nat) (lbl : Z) (row : list float)
  (y_pred : list Q) (yp : Q) (i : nat) (l u : Q) :
  In (method self) ABS_RESIDUAL_BASED ->
  predict_interval self rng fh X cov = (ws, Ok t) ->
  predict self fh X = Ok y_pred ->
  nth_error y_pred k = Some yp ->
  nth_error t k = Some (lbl, row) ->
  nth_error row (2 * i) = Some (Some l) ->
  nth_error row (2 * i + 1) = Some (Some u) ->
  l <= yp /\ yp <= u.
Proof.
  intros Hm Hcall Hp Hyp Hk Hl Hu.
  destruct (predict_interval_row _ _ _ _ _ _ _ _ _ _ _ Hcall Hk)
    as (R & y_pred' & yp' & offset & raw & _ & Hp' & Hyp' & _ & Hraw & ->).
  rewrite Hp in Hp'. injection Hp' as <-.
  rewrite Hyp in Hyp'. injection Hyp' as <-.
  destruct (abs_row_entries _ _ _ _ _ _ Hm Hraw Hl Hu)
    as (c & _ & Hne & H0 & H1 & -> & ->).
  pose proof (@half_width_nonneg (method self) (df_values R) offset
                (fh_len fh) c Hne H0 H1).
  nra.
Qed.


(** X5: for "empirical" the two bounds are the signed-residual quantiles at
    0.5 - c/2 and 0.5 + c/2 added to the forecast, so lower <= upper for a
    coverage c >= 0, and at c = 0 the interval is a single point. *)
Theorem empirical_interval_ordered (self : Wrapper estimator)
  (rng : RandomState) (fh : ForecastingHorizon) (X : Exog) (cov : list Q)
  (ws : list warning) (t : Table) (k : nat) (lbl : Z) (row : list float)
  (i : nat) (c l u : Q) :
  method self = "empirical"%string ->
  predict_interval self rng fh X cov = (ws, Ok t) ->
  nth_error t k = Some (lbl, row) ->
  nth_error cov i = Some c ->
  0 <= c ->
  nth_error row (2 * i) = Some (Some l) ->
  nth_error row (2 * i + 1) = Some (Some u) ->
  l <= u /\ (c == 0 -> l == u).
Proof.
  intros Hm Hcall Hk Hc H0 Hl Hu.
  destruct (predict_interval_row _ _ _ _ _ _ _ _ _ _ _ Hcall Hk)
    as (R & y_pred & yp & offset & raw & _ & _ & _ & _ & Hraw & ->).
  rewrite Hm in Hraw, Hl, Hu.
  destruct (empirical_row_entries _ _ _ _ _ _ Hraw Hl Hu)
    as (c' & Hc' & Hne & Ha & Hb & -> & ->).
  rewrite Hc in Hc'. injection Hc' as <-.
  set (s := np_sort (lag_residuals (df_values R) offset)).
  assert (Hs : StronglySorted Qle s) by apply np_sort_sorted.
  assert (Hn : s <> []) by (apply np_sort_nonempty; exact Hne).
  split.
  - assert (quantile_sorted s ((1 # 2) + - (1 # 2) * c)
            <= quantile_sorted s ((1 # 2) + (1 # 2) * c))
      by (apply quantile_sorted_mono; auto; lra).
    lra.
  - intro E.
    assert (quantile_sorted s ((1 # 2) + - (1 # 2) * c)
            == quantile_sorted s ((1 # 2) + (1 # 2) * c))
      by (apply quantile_sorted_Qeq; auto; lra).
    lra.
Qed.


End IntervalTable.

Lemma interval_table_shape_witness :
  exists t,
    naive_predict_interval (fitted_naive "empirical") 0%nat
      (Relative [1; 2; 3]%Z) None [1 # 2; 9 # 10] = ([], Ok t)
    /\ map fst t = [20; 21; 22]%Z
    /\ Forall (fun r => length (snd r) = 4%nat) t.
Proof.
  eexists. split; [vm_compute; reflexivity |].
  eapply (@interval_table_shape naive naive_clone naive_fit
            naive_predict_residuals naive_predict nat rot_sample
            (fitted_naive "empirical") 0%nat (Relative [1; 2; 3]%Z) None
            [1 # 2; 9 # 10] []).
  vm_compute. reflexivity.
Defined.


Lemma interval_contains_forecast_witness :
  exists t row l u,
    naive_predict_interval (fitted_naive "empirical_residual") 0%nat
      (Relative [1; 2; 3]%Z) None [1 # 2; 9 # 10] = ([], Ok t)
    /\ nth_error t 2 = Some (22%Z, row)
    /\ nth_error row 2 = Some (Some l)
    /\ nth_error row 3 = Some (Some u)
    /\ l <= 361 /\ 361 <= u.
Proof.
  do 4 eexists.
  split; [vm_compute; reflexivity |].
  do 3 (split; [reflexivity |]).
  eapply (@interval_contains_forecast naive naive_clone naive_fit
            naive_predict_residuals naive_predict nat rot_sample
            (fitted_naive "empirical_residual") 0%nat (Relative [1; 2; 3]%Z)
            None [1 # 2; 9 # 10] [] _ 2%nat 22%Z _ [361; 361; 361] 361 1%nat).
  - vm_compute. tauto.
  - vm_compute. reflexivity.
  - vm_compute. reflexivity.
  - reflexivity.
  - reflexivity.
  - reflexivity.
  - reflexivity.
Defined.


Lemma empirical_interval_ordered_witness :
  exists t row l u,
    naive_predict_interval (fitted_naive "empirical") 0%nat
      (Relative [1; 2; 3]%Z) None [0; 9 # 10] = ([], Ok t)
    /\ nth_error t 1 = Some (21%Z, row)
    /\ nth_error row 0 = Some (Some l)
    /\ nth_error row 1 = Some (Some u)
    /\ l <= u /\ (0 == 0 -> l == u).
Proof.
  do 4 eexists.
  split; [vm_compute; reflexivity |].
  do 3 (split; [reflexivity |]).
  eapply (@empirical_interval_ordered naive naive_clone naive_fit
            naive_predict_residuals naive_predict nat rot_sample
            (fitted_naive "empirical") 0%nat (Relative [1; 2; 3]%Z)
            None [0; 9 # 10] [] _ 1%nat 21%Z _ 0%nat 0).
  - reflexivity.
  - vm_compute. reflexivity.
  - reflexivity.
  - reflexivity.
  - unfold Qle; simpl; lia.
  - reflexivity.
  - reflexivity.
Defined.


(** * Further properties of the residual matrix *)

Local Open Scope Z_scope.

(** ** Frames *)

Lemma mem_In (l : Z) (ix : Index) : mem l ix = true <-> In l ix.
Proof.
  unfold mem. rewrite existsb_exists. split.
  - intros (x & Hx & E). apply Z.eqb_eq in E. subst. exact Hx.
  - intro H. exists l. split; [exact H | apply Z.eqb_refl].
Qed.

Lemma position_Some (l : Z) (ix : Index) :
  In l ix -> exists i, position l ix = Some i.
Proof.
  induction ix as [| k ix IH]; simpl; [contradiction |].
  intro H. destruct (k =? l) eqn:E; [eexists; reflexivity |].
  apply Z.eqb_neq in E. destruct H as [H | H]; [congruence |].
  destruct (IH H) as [i ->]. eexists. reflexivity.
Qed.

Lemma position_nth_error (l : Z) (ix : Index) (i : nat) :
  position l ix = Some i -> nth_error ix i = Some l.
Proof.
  revert i. induction ix as [| k ix IH]; simpl; intro i; [discriminate |].
  destruct (k =? l) eqn:E.
  - intros [= <-]. apply Z.eqb_eq in E. subst. reflexivity.
  - destruct (position l ix) as [j |]; [| discriminate].
    intros [= <-]. simpl. apply IH. reflexivity.
Qed.

Lemma position_app (l : Z) (ix ix' : Index) (i : nat) :
  position l ix = Some i -> position l (ix ++ ix') = Some i.
Proof.
  revert i. induction ix as [| k ix IH]; simpl; intro i; [discriminate |].
  destruct (k =? l); [auto |].
  destruct (position l ix) as [j |]; [| discriminate].
  intros [= <-]. rewrite (IH j eq_refl). reflexivity.
Qed.

Lemma set_rows_nth_error (idx : Index) (vals : list (list float)) (id : Z)
  (row : list float) (i : nat) (l : Z) (v : list float) :
  nth_error idx i = Some l -> nth_error vals i = Some v ->
  nth_error (set_rows idx vals id row) i = Some (if l =? id then row else v).
Proof.
  revert vals i. induction idx as [| k idx IH]; intros [| r vals] [| i];
    simpl; try discriminate.
  - intros [= ->] [= ->]. reflexivity.
  - apply IH.
Qed.

Lemma empty_frame_rectangular (idx cols : Index) :
  rectangular (empty_frame idx cols).
Proof.
  unfold rectangular, empty_frame. simpl. split.
  - apply length_map.
  - apply Forall_forall. intros r Hr. apply in_map_iff in Hr as (x & <- & _).
    apply length_map.
Qed.

Lemma set_rows_Forall (P : list float -> Prop) (idx : Index)
  (vals : list (list float)) (id : Z) (row : list float) :
  P row -> Forall P vals -> Forall P (set_rows idx vals id row).
Proof.
  intros Hrow. revert vals.
  induction idx as [| k idx IH]; intros [| r vals] Hall; simpl;
    try constructor.
  - inversion Hall; subst. destruct (k =? id); assumption.
  - apply IH. inversion Hall; assumption.
Qed.

Lemma align_row_length (cols : Index) (s : Series) :
  length (align_row cols s) = length cols.
Proof.
  apply length_map.
Qed.

Lemma loc_set_row_rectangular (df : DataFrame) (id : Z) (s : Series) :
  rectangular df -> rectangular (loc_set_row df id s).
Proof.
  intros [Hlen Hall]. unfold rectangular, loc_set_row.
  destruct (mem id (df_index df)); simpl.
  - split.
    + rewrite set_rows_length, Hlen. apply Nat.min_id.
    + apply set_rows_Forall; [apply align_row_length | exact Hall].
  - split.
    + rewrite !length_app. simpl. lia.
    + apply Forall_app. split; [exact Hall |].
      constructor; [apply align_row_length | constructor].
Qed.

Lemma loc_set_row_columns (df : DataFrame) (id : Z) (s : Series) :
  df_columns (loc_set_row df id s) = df_columns df.
Proof.
  unfold loc_set_row. destruct (mem id (df_index df)); reflexivity.
Qed.

(** Writing the row of another label leaves a row as it was. *)
Lemma df_row_other (df : DataFrame) (id id' : Z) (s : Series) :
  rectangular df -> In id' (df_index df) -> id' <> id ->
  df_row (loc_set_row df id s) id' = df_row df id'.
Proof.
  intros [Hlen _] Hin Hne. unfold df_row, loc_set_row.
  destruct (position_Some _ _ Hin) as [i Hi].
  pose proof (position_nth_error _ _ Hi) as Hnth.
  assert (Hlt : (i < length (df_values df))%nat).
  { rewrite Hlen. apply nth_error_Some. congruence. }
  destruct (nth_error (df_values df) i) as [v |] eqn:Hv;
    [| apply nth_error_None in Hv; lia].
  destruct (mem id (df_index df)); simpl.
  - rewrite Hi. rewrite (set_rows_nth_error _ _ _ _ _ Hnth Hv).
    replace (id' =? id) with false by (symmetry; apply Z.eqb_neq; exact Hne).
    rewrite Hv. reflexivity.
  - rewrite (position_app _ _ [id] Hi), Hi.
    rewrite nth_error_app1 by exact Hlt. reflexivity.
Qed.

(** Reading the row just written gives the series aligned to the columns. *)
Lemma df_row_same (df : DataFrame) (id : Z) (s : Series) :
  rectangular df -> In id (df_index df) ->
  df_row (loc_set_row df id s) id = Some (align_row (df_columns df) s).
Proof.
  intros [Hlen _] Hin. unfold df_row, loc_set_row.
  destruct (position_Some _ _ Hin) as [i Hi].
  pose proof (position_nth_error _ _ Hi) as Hnth.
  assert (Hlt : (i < length (df_values df))%nat).
  { rewrite Hlen. apply nth_error_Some. congruence. }
  destruct (nth_error (df_values df) i) as [v |] eqn:Hv;
    [| apply nth_error_None in Hv; lia].
  apply mem_In in Hin. rewrite Hin. simpl. rewrite Hi.
  rewrite (set_rows_nth_error _ _ _ _ _ Hnth Hv).
  rewrite Z.eqb_refl. reflexivity.
Qed.

Lemma loc_set_row_In (df : DataFrame) (id id' : Z) (s : Series) :
  In id' (df_index df) -> In id' (df_index (loc_set_row df id s)).
Proof.
  intro H. apply (loc_set_row_index df id s). exact H.
Qed.

Lemma fold_rows_rectangular (l : list (Z * Series)) (df : DataFrame) :
  rectangular df ->
  rectangular (fold_left (fun rm ir => loc_set_row rm (fst ir) (snd ir)) l df).
Proof.
  revert df. induction l as [| ir l IH]; simpl; intros df H; [exact H |].
  apply IH, loc_set_row_rectangular, H.
Qed.

Lemma fold_rows_columns (l : list (Z * Series)) (df : DataFrame) :
  df_columns (fold_left (fun rm ir => loc_set_row rm (fst ir) (snd ir)) l df)
  = df_columns df.
Proof.
  revert df. induction l as [| ir l IH]; simpl; intro df; [reflexivity |].
  rewrite IH. apply loc_set_row_columns.
Qed.

Lemma fold_rows_index_eq (l : list (Z * Series)) (df : DataFrame) :
  (forall ir, In ir l -> In (fst ir) (df_index df)) ->
  df_index (fold_left (fun rm ir => loc_set_row rm (fst ir) (snd ir)) l df)
  = df_index df.
Proof.
  revert df. induction l as [| ir l IH]; simpl; intros df H; [reflexivity |].
  assert (E : df_index (loc_set_row df (fst ir) (snd ir)) = df_index df).
  { apply loc_set_row_index_eq, mem_In, H. left. reflexivity. }
  rewrite IH; [exact E |].
  intros ir' Hir'. rewrite E. apply H. right. exact Hir'.
Qed.

(** A row whose label is not among the anchors written is left as it was. *)
Lemma fold_rows_untouched (l : list (Z * Series)) (df : DataFrame) (id : Z) :
  rectangular df -> In id (df_index df) -> ~ In id (map fst l) ->
  df_row (fold_left (fun rm ir => loc_set_row rm (fst ir) (snd ir)) l df) id
  = df_row df id.
Proof.
  revert df. induction l as [| ir l IH]; simpl; intros df Hr Hin Hni;
    [reflexivity |].
  rewrite IH.
  - apply df_row_other; auto.
  - apply loc_set_row_rectangular, Hr.
  - apply loc_set_row_In, Hin.
  - intro H. apply Hni. right. exact H.
Qed.

(** When every series written for a label is the one [g] gives for it, the
    row of a written label is that series, aligned. *)
Lemma fold_rows_written (g : Z -> option Series) (l : list (Z * Series))
  (df : DataFrame) (id : Z) :
  rectangular df ->
  In id (df_index df) ->
  (forall ir, In ir l -> g (fst ir) = Some (snd ir)) ->
  In id (map fst l) ->
  exists s, g id = Some s
            /\ df_row (fold_left (fun rm ir => loc_set_row rm (fst ir) (snd ir))
                                 l df) id
               = Some (align_row (df_columns df) s).
Proof.
  revert df. induction l as [| ir l IH]; simpl; intros df Hr Hid Hg Hin;
    [contradiction |].
  destruct (in_dec Z.eq_dec id (map fst l)) as [Hl | Hnl].
  - destruct (IH (loc_set_row df (fst ir) (snd ir))) as (s & Hs & Hrow); auto.
    + apply loc_set_row_rectangular, Hr.
    + apply loc_set_row_In, Hid.
    + exists s. split; [exact Hs |]. rewrite Hrow, loc_set_row_columns.
      reflexivity.
  - destruct Hin as [E | Hin]; [| contradiction].
    exists (snd ir). split; [rewrite <- E; apply Hg; left; reflexivity |].
    rewrite fold_rows_untouched; auto.
    + rewrite <- E. apply df_row_same; [exact Hr |]. rewrite E. exact Hid.
    + apply loc_set_row_rectangular, Hr.
    + apply loc_set_row_In, Hid.
Qed.

Lemma map_fst_combine {A B} (la : list A) (lb : list B) :
  length lb = length la -> map fst (combine la lb) = la.
Proof.
  revert lb. induction la as [| a la IH]; intros [| b lb]; simpl;
    try discriminate; intro H; [reflexivity |].
  f_equal. apply IH. congruence.
Qed.

Lemma df_row_empty_frame (idx cols : Index) (id : Z) :
  In id idx -> df_row (empty_frame idx cols) id = Some (map (fun _ => NaN) cols).
Proof.
  intro Hin. unfold df_row, empty_frame. simpl.
  destruct (position_Some _ _ Hin) as [i Hi]. rewrite Hi.
  apply position_nth_error in Hi. rewrite nth_error_map, Hi. reflexivity.
Qed.

(** ** Tasks *)

Lemma run_tasks_inv {A} (tasks : list (M A)) (ws : list warning)
  (rs : list A) :
  run_tasks tasks = (ws, Ok rs) ->
  Forall2 (fun t r => exists w, t = (w, Ok r)) tasks rs
  /\ ((forall t w r, In t tasks -> t = (w, Ok r) -> w = []) -> ws = []).
Proof.
  revert ws rs. induction tasks as [| t tasks IH]; simpl; intros ws rs H.
  - injection H as <- <-. split; [constructor | reflexivity].
  - apply bind_ok in H as (w1 & a & w2 & Ht & H & ->).
    apply bind_ok in H as (w3 & r & w4 & Hr & H & ->).
    injection H as <- <-.
    destruct (IH _ _ Hr) as [HF Hs]. split.
    + constructor; [exists w1; exact Ht | exact HF].
    + intro Hall. rewrite (Hall t w1 a (or_introl eq_refl) Ht).
      rewrite Hs; [reflexivity |].
      intros t' w' r' Hin. apply Hall. right. exact Hin.
Qed.

Lemma Parallel_inv {A} (n_jobs : option Z) (tasks : list (M A))
  (ws : list warning) (rs : list A) :
  Parallel n_jobs tasks = (ws, Ok rs) -> run_tasks tasks = (ws, Ok rs).
Proof.
  unfold Parallel. destruct n_jobs as [[| p | p] |]; auto. discriminate.
Qed.

Lemma Forall2_map_l {A B C} (P : B -> C -> Prop) (f : A -> B) (l : list A)
  (l' : list C) :
  Forall2 P (map f l) l' -> Forall2 (fun a c => P (f a) c) l l'.
Proof.
  revert l'. induction l as [| a l IH]; intros l' H; inversion H; subst;
    constructor; auto.
Qed.

Lemma Forall2_combine_In {A B} (P : A -> B -> Prop) (la : list A)
  (lb : list B) :
  Forall2 P la lb ->
  length lb = length la
  /\ forall ir, In ir (combine la lb) -> P (fst ir) (snd ir).
Proof.
  induction 1 as [| a b la lb Hab HF [Hlen IH]]; simpl.
  - split; [reflexivity | contradiction].
  - split; [congruence |]. intros ir [<- | Hin]; auto.
Qed.

Lemma nth_error_combine_Some {A B} (la : list A) (lb : list B) (i : nat) a b :
  nth_error la i = Some a -> nth_error lb i = Some b ->
  nth_error (combine la lb) i = Some (a, b).
Proof.
  revert lb i. induction la as [| x la IH]; intros [| y lb] [| i]; simpl;
    try discriminate.
  - intros [= ->] [= ->]. reflexivity.
  - apply IH.
Qed.

Lemma loc_set_block_columns (df old rm : DataFrame) :
  loc_set_block df old = Ok rm -> df_columns rm = df_columns df.
Proof.
  unfold loc_set_block. destruct (_ && _); [| discriminate].
  intros [= <-]. reflexivity.
Qed.

Lemma loc_set_block_rectangular (df old rm : DataFrame) :
  loc_set_block df old = Ok rm -> rectangular df -> rectangular rm.
Proof.
  unfold loc_set_block. destruct (_ && _); [| discriminate].
  intros [= <-] [Hlen Hall]. unfold rectangular. simpl. split.
  - rewrite length_map, length_combine, Hlen. apply Nat.min_id.
  - apply Forall_forall. intros row Hrow.
    apply in_map_iff in Hrow as ([r row0] & <- & Hin).
    rewrite length_map, length_combine.
    apply in_combine_r in Hin. rewrite Forall_forall in Hall.
    rewrite (Hall _ Hin). apply Nat.min_id.
Qed.

Lemma loc_set_block_incl (df old rm : DataFrame) :
  loc_set_block df old = Ok rm ->
  incl (df_index old) (df_index df) /\ incl (df_columns old) (df_columns df).
Proof.
  unfold loc_set_block. destruct (_ && _) eqn:E; [| discriminate].
  intros _. apply andb_true_iff in E as [E1 E2].
  rewrite forallb_forall in E1, E2.
  split; intros l Hl; apply mem_In; auto.
Qed.

(** The cells named by the old frame take its values. *)
Lemma loc_set_block_at (df old rm : DataFrame) (r c : Z) :
  loc_set_block df old = Ok rm -> rectangular df ->
  In r (df_index old) -> In c (df_columns old) ->
  df_at rm r c = df_at old r c.
Proof.
  intros Hb [Hlen Hall] Hr Hc.
  destruct (loc_set_block_incl _ _ Hb) as [Hi Hj].
  unfold loc_set_block in Hb. destruct (_ && _); [| discriminate].
  injection Hb as <-.
  destruct (position_Some _ _ (Hi _ Hr)) as [i Hpi].
  destruct (position_Some _ _ (Hj _ Hc)) as [j Hpj].
  pose proof (position_nth_error _ _ Hpi) as Hni.
  pose proof (position_nth_error _ _ Hpj) as Hnj.
  assert (Hlt : (i < length (df_values df))%nat).
  { rewrite Hlen. apply nth_error_Some. congruence. }
  destruct (nth_error (df_values df) i) as [row |] eqn:Hrow;
    [| apply nth_error_None in Hrow; lia].
  assert (Hrl : length row = length (df_columns df)).
  { rewrite Forall_forall in Hall. apply Hall. eapply nth_error_In; eauto. }
  assert (Hjl : (j < length row)%nat).
  { rewrite Hrl. apply nth_error_Some. congruence. }
  destruct (nth_error row j) as [v |] eqn:Hv;
    [| apply nth_error_None in Hv; lia].
  unfold df_at at 1. cbn [df_index df_columns df_values]. rewrite Hpi, Hpj.
  match goal with
  | |- nth j (nth i (map ?F ?L) []) NaN = _ =>
      assert (E1 : nth i (map F L) [] = F (r, row))
  end.
  { apply nth_error_nth. rewrite nth_error_map.
    rewrite (nth_error_combine_Some _ _ _ Hni Hrow). reflexivity. }
  rewrite E1. clear E1.
  match goal with
  | |- nth j (map ?G ?L) NaN = _ =>
      assert (E2 : nth j (map G L) NaN = G (c, v))
  end.
  { apply nth_error_nth. rewrite nth_error_map.
    rewrite (nth_error_combine_Some _ _ _ Hnj Hv). reflexivity. }
  rewrite E2. clear E2.
  apply mem_In in Hr, Hc. rewrite Hr, Hc. reflexivity.
Qed.

(** A cell is read from the row of its label. *)
Lemma df_at_row (df df' : DataFrame) (r c : Z) :
  df_index df' = df_index df -> df_columns df' = df_columns df ->
  df_row df' r = df_row df r -> df_at df' r c = df_at df r c.
Proof.
  intros Ei Ec Er. unfold df_at, df_row in *. rewrite Ei, Ec in *.
  destruct (position r (df_index df)) as [i |]; [| reflexivity].
  destruct (position c (df_columns df)) as [j |]; [| reflexivity].
  f_equal.
  destruct (nth_error (df_values df) i) as [row |] eqn:H.
  - rewrite (nth_error_nth _ _ _ Er), (nth_error_nth _ _ _ H). reflexivity.
  - rewrite !nth_overflow; [reflexivity | |];
      apply nth_error_None; assumption.
Qed.

Lemma index_difference_spec (ix other : Index) (l : Z) :
  In l (index_difference ix other) <-> In l ix /\ ~ In l other.
Proof.
  unfold index_difference. rewrite filter_In. split; intros [H1 H2].
  - split; [exact H1 |]. intro H. apply mem_In in H. rewrite H in H2.
    discriminate.
  - split; [exact H1 |]. destruct (mem l other) eqn:E; [| reflexivity].
    apply mem_In in E. contradiction.
Qed.

(** The concrete sampler only returns labels of the population. *)
Lemma rot_sample_sub (rng : nat) (frac : Q) (ix s : Index) :
  rot_sample rng frac ix = Ok s -> incl s ix.
Proof.
  unfold rot_sample. destruct (_ && _); [| discriminate].
  intros [= <-] x Hx.
  assert (Hr : In x (rotate rng ix)).
  { rewrite <- (firstn_skipn
                  (Z.to_nat (Qfloor (frac * inject_Z (Z.of_nat (length ix))
                                     + (1 # 2)))) (rotate rng ix)).
    apply in_or_app. left. exact Hx. }
  unfold rotate in Hr. apply in_app_or in Hr.
  rewrite <- (firstn_skipn (rng mod length ix) ix).
  apply in_or_app. tauto.
Qed.

(** ** The build *)

Section MatrixInvariants.

Variable estimator : Type.
Variable clone : estimator -> estimator.
Variable est_fit :
  estimator -> Series -> Exog -> option ForecastingHorizon -> result estimator.
Variable est_predict_residuals :
  estimator -> Series -> Exog -> result Series.
Variable est_predict : estimator -> Exog -> Z -> Q.
Variable est_update :
  estimator -> Series -> Exog -> bool -> result estimator.
Variable RandomState : Type.
Variable pd_sample : RandomState -> Q -> Index -> result Index.

Local Abbreviation compute :=
  (_compute_sliding_residuals clone est_fit est_predict_residuals pd_sample).
Local Abbreviation matrix_row :=
  (_get_residuals_matrix_row est_fit est_predict_residuals).
Local Abbreviation update :=
  (_update clone est_fit est_predict_residuals est_update pd_sample).
Local Abbreviation fit_ :=
  (fit clone est_fit est_predict_residuals pd_sample).
Local Abbreviation predict_interval :=
  (_predict_interval clone est_fit est_predict_residuals est_predict pd_sample).

(** A worker that returns has not warned. *)
Lemma matrix_row_ok (f : estimator) (y : Series) (X : Exog) (id : Z)
  (ws : list warning) (s : Series) :
  matrix_row f y X id = (ws, Ok s) -> ws = [].
Proof.
  unfold _get_residuals_matrix_row.
  destruct (est_fit _ _ _ _) as [f' |]; cbn; [| discriminate].
  destruct (est_predict_residuals _ _ _) as [r | e]; cbn.
  - intros [= <- _]. reflexivity.
  - destruct e; discriminate.
Qed.

(** The steps of a build that returned. *)
Lemma compute_inv (self : Wrapper estimator) (rng : RandomState)
  (y : Series) (X : Exog) (f : estimator) (iw : window_spec) (sf : option Q)
  (upd : bool) (ws : list warning) (rm : DataFrame) :
  compute self rng y X f iw sf upd = (ws, Ok rm) ->
  exists n rm0 cands anchors rows,
    _parse_initial_window y iw = Ok n
    /\ ((exists old,
           upd = true /\ residuals_matrix_ self = Some old
           /\ loc_set_block (empty_frame (series_index (iloc_from y n))
                                         (series_index (iloc_from y n))) old
              = Ok rm0
           /\ cands = index_difference (series_index (iloc_from y n))
                                       (df_index old))
        \/ ((upd = false \/ residuals_matrix_ self = None)
            /\ rm0 = empty_frame (series_index (iloc_from y n))
                                 (series_index (iloc_from y n))
            /\ cands = series_index (iloc_from y n)))
    /\ ((truthy sf = false /\ anchors = cands)
        \/ (exists frac, sf = Some frac /\ truthy sf = true
                         /\ pd_sample rng frac cands = Ok anchors))
    /\ run_tasks (map (fun id => matrix_row (clone f) y X id) anchors)
       = (ws, Ok rows)
    /\ rm = write_rows rm0 anchors rows.
Proof.
  unfold _compute_sliding_residuals. intro H.
  apply bind_ok in H as (ws1 & n & ws2 & Hn & H & ->).
  apply lift_ok in Hn as [Hn ->].
  apply bind_ok in H as (ws3 & st & ws4 & Hst & H & ->).
  apply bind_ok in H as (ws5 & ids & ws6 & Hids & H & ->).
  apply bind_ok in H as (ws7 & rows & ws8 & Hrun & H & ->).
  injection H as <- <-.
  apply Parallel_inv in Hrun.
  exists n, (snd st), (fst st), ids, rows.
  split; [exact Hn |].
  assert (Hst' : ws3 = []
     /\ ((exists old,
           upd = true /\ residuals_matrix_ self = Some old
           /\ loc_set_block (empty_frame (series_index (iloc_from y n))
                                         (series_index (iloc_from y n))) old
              = Ok (snd st)
           /\ fst st = index_difference (series_index (iloc_from y n))
                                        (df_index old))
        \/ ((upd = false \/ residuals_matrix_ self = None)
            /\ snd st = empty_frame (series_index (iloc_from y n))
                                    (series_index (iloc_from y n))
            /\ fst st = series_index (iloc_from y n)))).
  { destruct upd; [destruct (residuals_matrix_ self) as [old |] |].
    - apply bind_ok in Hst as (wa & rm0 & wb & Hrm0 & Hst & ->).
      apply lift_ok in Hrm0 as [Hrm0 ->].
      injection Hst as <- <-. split; [reflexivity |].
      left. exists old. auto.
    - injection Hst as <- <-. split; [reflexivity |]. right. auto.
    - injection Hst as <- <-. split; [reflexivity |]. right. auto. }
  destruct Hst' as [-> Hst'].
  assert (Hids' : ws5 = []
     /\ ((truthy sf = false /\ ids = fst st)
         \/ (exists frac, sf = Some frac /\ truthy sf = true
                          /\ pd_sample rng frac (fst st) = Ok ids))).
  { destruct (truthy sf) eqn:Et.
    - destruct sf as [frac |]; [| discriminate].
      apply lift_ok in Hids as [Hids ->]. split; [reflexivity |].
      right. exists frac. auto.
    - injection Hids as <- <-. split; [reflexivity |]. left. auto. }
  destruct Hids' as [-> Hids'].
  repeat split; auto.
  rewrite app_nil_r. exact Hrun.
Qed.

(** X7: the frame a build returns is square over the labels past the
    window: its row index and its columns are both [y.index[w:]], and it has
    one cell per (row, column).  The sampler is only assumed to return labels
    of its population. *)
Theorem matrix_shape (self : Wrapper estimator) (rng : RandomState)
  (y : Series) (X : Exog) (f : estimator) (iw : window_spec) (sf : option Q)
  (upd : bool) (ws : list warning) (rm : DataFrame) :
  (forall r frac ix s, pd_sample r frac ix = Ok s -> incl s ix) ->
  compute self rng y X f iw sf upd = (ws, Ok rm) ->
  exists n,
    _parse_initial_window y iw = Ok n
    /\ df_index rm = series_index (iloc_from y n)
    /\ df_columns rm = series_index (iloc_from y n)
    /\ rectangular rm.
Proof.
  clear est_predict est_update.
  intros Hsub H.
  destruct (compute_inv _ _ _ _ _ _ _ _ H)
    as (n & rm0 & cands & anchors & rows & Hn & Hst & Hids & Hrun & ->).
  exists n. split; [exact Hn |].
  set (yi := series_index (iloc_from y n)) in *.
  assert (H0 : df_index rm0 = yi /\ df_columns rm0 = yi /\ rectangular rm0
               /\ incl cands yi).
  { destruct Hst as [(old & _ & _ & Hb & ->) | (_ & -> & ->)].
    - rewrite (loc_set_block_index _ _ Hb), (loc_set_block_columns _ _ Hb).
      split; [reflexivity |]. split; [reflexivity |]. split.
      + eapply loc_set_block_rectangular; [exact Hb |].
        apply empty_frame_rectangular.
      + intros l Hl. apply index_difference_spec in Hl. tauto.
    - split; [reflexivity |]. split; [reflexivity |].
      split; [apply empty_frame_rectangular | apply incl_refl]. }
  destruct H0 as (Hi & Hc & Hr & Hcand).
  assert (Hanch : incl anchors yi).
  { destruct Hids as [[_ ->] | (frac & _ & _ & Hs)]; [exact Hcand |].
    eapply incl_tran; [eapply Hsub; exact Hs | exact Hcand]. }
  unfold write_rows. split; [| split].
  - rewrite fold_rows_index_eq; [exact Hi |].
    intros ir Hir. rewrite Hi. apply Hanch.
    destruct ir as [a b]. eapply in_combine_l. exact Hir.
  - rewrite fold_rows_columns. exact Hc.
  - apply fold_rows_rectangular. exact Hr.
Qed.

(** X8: in a matrix built afresh, the row of every label past the window is
    either the residual series of a clone fitted up to that label, aligned to
    the columns (when the label was an anchor: always without sampling), or
    all NaN (when sampling left the label out). *)
Theorem fresh_matrix_rows (self : Wrapper estimator) (rng : RandomState)
  (y : Series) (X : Exog) (f : estimator) (iw : window_spec) (sf : option Q)
  (ws : list warning) (rm : DataFrame) (n : Z) :
  compute self rng y X f iw sf false = (ws, Ok rm) ->
  _parse_initial_window y iw = Ok n ->
  exists anchors,
    ((truthy sf = false /\ anchors = series_index (iloc_from y n))
     \/ (exists frac, sf = Some frac /\ truthy sf = true
                      /\ pd_sample rng frac (series_index (iloc_from y n))
                         = Ok anchors))
    /\ forall id,
         In id (series_index (iloc_from y n)) ->
         if mem id anchors
         then exists s,
                matrix_row (clone f) y X id = ([], Ok s)
                /\ df_row rm id
                   = Some (align_row (series_index (iloc_from y n)) s)
         else df_row rm id
              = Some (map (fun _ => NaN) (series_index (iloc_from y n))).
Proof.
  intros H Hn.
  destruct (compute_inv _ _ _ _ _ _ _ _ H)
    as (n' & rm0 & cands & anchors & rows & Hn' & Hst & Hids & Hrun & ->).
  rewrite Hn in Hn'. injection Hn' as <-.
  set (yi := series_index (iloc_from y n)) in *.
  assert (H0 : rm0 = empty_frame yi yi /\ cands = yi).
  { destruct Hst as [(old & Hu & _) | (_ & -> & ->)]; [discriminate | auto]. }
  destruct H0 as [-> ->].
  exists anchors. split; [exact Hids |].
  destruct (run_tasks_inv _ Hrun) as [HF _].
  apply Forall2_map_l in HF.
  destruct (Forall2_combine_In HF) as [Hlen Hpairs].
  intros id Hid. unfold write_rows.
  destruct (mem id anchors) eqn:Em.
  - apply mem_In in Em.
    destruct (@fold_rows_written
                (fun a => match matrix_row (clone f) y X a with
                          | (_, Ok s) => Some s
                          | _ => None
                          end)
                (combine anchors rows) (empty_frame yi yi) id)
      as (s & Hs & Hrow).
    + apply empty_frame_rectangular.
    + exact Hid.
    + intros ir Hir. destruct (Hpairs _ Hir) as [w Hw]. rewrite Hw.
      reflexivity.
    + rewrite map_fst_combine; assumption.
    + exists s. split; [| exact Hrow].
      destruct (matrix_row (clone f) y X id) as [w [s' |]] eqn:Hw;
        [| discriminate].
      injection Hs as ->. pose proof (matrix_row_ok _ _ _ _ Hw) as Ew.
      subst w. reflexivity.
  - rewrite fold_rows_untouched.
    + apply df_row_empty_frame. exact Hid.
    + apply empty_frame_rectangular.
    + exact Hid.
    + rewrite map_fst_combine by assumption.
      intro Hin. apply mem_In in Hin. congruence.
Qed.

Lemma compute_ok_silent (self : Wrapper estimator)
  (rng : RandomState) (y : Series) (X : Exog) (f : estimator)
  (iw : window_spec) (sf : option Q) (upd : bool) (ws : list warning)
  (rm : DataFrame) :
  compute self rng y X f iw sf upd = (ws, Ok rm) -> ws = [].
Proof.
  intro H.
  destruct (compute_inv _ _ _ _ _ _ _ _ H)
    as (n & rm0 & cands & anchors & rows & _ & _ & _ & Hrun & _).
  destruct (run_tasks_inv _ Hrun) as [_ Hs]. apply Hs.
  intros t w r Hin Ht. apply in_map_iff in Hin as (id & <- & _).
  eapply matrix_row_ok. exact Ht.
Qed.

(** X9: a build that returns a matrix has emitted no warning: the only
    warning of the worker is followed by its failure. *)
Theorem successful_build_is_silent (self : Wrapper estimator)
  (rng : RandomState) (y : Series) (X : Exog) (f : estimator)
  (iw : window_spec) (sf : option Q) (upd : bool) (ws : list warning)
  (rm : DataFrame) :
  compute self rng y X f iw sf upd = (ws, Ok rm) -> ws = [].
Proof.
  apply compute_ok_silent.
Qed.

(** X10: an update that returns never loses what was computed: every label
    of the old matrix is a label of the new one, and every cell of the old
    matrix keeps its value.  The sampler is only assumed to return labels of
    its population. *)
Theorem update_preserves_cells (self self1 : Wrapper estimator)
  (rng : RandomState) (y : Series) (X : Exog) (update_params : bool)
  (ws : list warning) (old new : DataFrame) :
  (forall r frac ix s, pd_sample r frac ix = Ok s -> incl s ix) ->
  update self rng y X update_params = (self1, (ws, Ok tt)) ->
  residuals_matrix_ self = Some old ->
  residuals_matrix_ self1 = Some new ->
  incl (df_index old) (df_index new)
  /\ forall r c, In r (df_index old) -> In c (df_columns old) ->
                 df_at new r c = df_at old r c.
Proof.
  clear est_predict.
  intros Hsub H Hold Hnew.
  unfold _update in H.
  destruct (forecaster_ self) as [f0 |]; cbn [getattr] in H; [| discriminate].
  destruct (est_update f0 y X update_params) as [f1 |]; [| discriminate].
  cbn [residuals_matrix_ set_forecaster_] in H. rewrite Hold in H.
  cbn [getattr] in H.
  destruct (max_lt _ _).
  2:{ injection H as <- _. cbn in Hnew. rewrite Hold in Hnew.
      injection Hnew as <-. split; [apply incl_refl | reflexivity]. }
  destruct (_compute_sliding_residuals _ _ _ _ _ _ _ _ _ _ _ _)
    as [ws' [rm |]] eqn:Hc; [| discriminate].
  injection H as <- _. cbn in Hnew. injection Hnew as ->.
  destruct (compute_inv _ _ _ _ _ _ _ _ Hc)
    as (n & rm0 & cands & anchors & rows & Hn & Hst & Hids & Hrun & ->).
  cbn [residuals_matrix_ set_forecaster_] in Hst. rewrite Hold in Hst.
  destruct Hst as [(old' & _ & Eo & Hb & ->) | ([Hu | Hu] & _)];
    try discriminate.
  injection Eo as <-.
  set (yi := series_index (iloc_from y n)) in *.
  destruct (loc_set_block_incl _ _ Hb) as [Hi Hj]. simpl in Hi, Hj.
  pose proof (loc_set_block_index _ _ Hb) as Ei. simpl in Ei.
  pose proof (loc_set_block_columns _ _ Hb) as Ec. simpl in Ec.
  assert (Hr0 : rectangular rm0).
  { eapply loc_set_block_rectangular; [exact Hb |].
    apply empty_frame_rectangular. }
  assert (Hanch : incl anchors (index_difference yi (df_index old))).
  { destruct Hids as [[_ ->] | (frac & _ & _ & Hs)]; [apply incl_refl |].
    eapply Hsub. exact Hs. }
  destruct (run_tasks_inv _ Hrun) as [HF _].
  apply Forall2_map_l in HF.
  destruct (Forall2_combine_In HF) as [Hlen _].
  assert (Eidx : df_index (write_rows rm0 anchors rows) = df_index rm0).
  { unfold write_rows. apply fold_rows_index_eq.
    intros [a b] Hir. apply in_combine_l in Hir. simpl.
    rewrite Ei. apply Hanch in Hir. apply index_difference_spec in Hir. tauto. }
  split.
  - rewrite Eidx, Ei. exact Hi.
  - intros r c Hr Hcol.
    rewrite <- (@loc_set_block_at _ old rm0 r c Hb
                  (empty_frame_rectangular yi yi) Hr Hcol).
    apply df_at_row; [exact Eidx | apply fold_rows_columns |].
    unfold write_rows. apply fold_rows_untouched; [exact Hr0 | |].
    + rewrite Ei. apply Hi. exact Hr.
    + rewrite map_fst_combine by assumption.
      intro Hin. apply Hanch in Hin. apply index_difference_spec in Hin.
      tauto.
Qed.

(** X11: passing the horizon early or late gives the same intervals.  Let
    the wrapper hold the training data ([_y], [_X]) and let the point
    forecaster fit alike with and without a horizon.  Then the wrapper fitted
    without a horizon answers [_predict_interval] (rebuilding the matrix at
    the random state [rng]) exactly as the wrapper fitted with a horizon (its
    matrix built at [rng]) answers from its cache. *)
Theorem late_horizon_same_intervals (w w1 : Wrapper estimator)
  (rng rng0 rng' : RandomState) (y : Series) (X X' : Exog)
  (fh0 fh : ForecastingHorizon) (cov : list Q) (ws1 : list warning) :
  _y w = y -> _X w = X ->
  est_fit (clone (forecaster w)) y X None
  = est_fit (clone (forecaster w)) y X (Some fh0) ->
  _fit clone est_fit est_predict_residuals pd_sample w rng y X (Some fh0)
  = (w1, (ws1, Ok tt)) ->
  predict_interval
    (fst (_fit clone est_fit est_predict_residuals pd_sample w rng0 y X None))
    rng fh X' cov
  = predict_interval w1 rng' fh X' cov.
Proof.
  intros Hy HX Hsame Hfit.
  unfold _fit in *.
  cbn [forecaster set_fh_early_ is_Some] in *.
  rewrite Hsame.
  destruct (est_fit (clone (forecaster w)) y X (Some fh0)) as [g |];
    [| discriminate].
  cbn [forecaster initial_window sample_frac set_forecaster_ fst] in *.
  match type of Hfit with
  | context [_compute_sliding_residuals ?a ?b ?c ?d ?e ?f ?g ?h ?i ?j ?k ?l] =>
      destruct (_compute_sliding_residuals a b c d e f g h i j k l)
        as [wsb [rm |]] eqn:Hc; [| discriminate]
  end.
  injection Hfit as <- <-.
  pose proof (compute_ok_silent _ _ _ _ _ _ _ _ Hc) as ->.
  unfold _predict_interval, _predict.
  cbn -[_compute_sliding_residuals pred_int_row].
  rewrite Hy, HX.
  unfold _compute_sliding_residuals in *.
  cbn -[_parse_initial_window pred_int_row loc_set_block] in *.
  rewrite Hc. reflexivity.
Qed.

(** X12: [_fit] with a horizon establishes the fitted state (flag, fitted
    clone, cached matrix) and [_update] keeps it, also when it raises; neither
    changes the configuration given to the constructor. *)
Theorem fitted_state_kept (w w1 : Wrapper estimator) (rng : RandomState)
  (y : Series) (X : Exog) (fh0 : ForecastingHorizon) (update_params : bool)
  (ws : list warning) :
  _fit clone est_fit est_predict_residuals pd_sample w rng y X (Some fh0)
  = (w1, (ws, Ok tt))
  \/ (fitted_early w = true /\ w1 = fst (update w rng y X update_params)) ->
  fitted_early w1 = true
  /\ forecaster w1 = forecaster w /\ method w1 = method w
  /\ initial_window w1 = initial_window w /\ sample_frac w1 = sample_frac w
  /\ n_jobs w1 = n_jobs w.
Proof.
  intros [H | [Hf ->]].
  - unfold _fit in H. cbn [forecaster set_fh_early_ is_Some] in H.
    destruct (est_fit _ _ _ _) as [g |]; [| discriminate].
    destruct (_compute_sliding_residuals _ _ _ _ _ _ _ _ _ _ _ _)
      as [wsb [rm |]]; [| discriminate].
    injection H as <- _. cbn. auto 10.
  - unfold fitted_early in Hf. unfold _update.
    destruct (fh_early_ w) as [[|] |] eqn:He; try discriminate.
    apply andb_true_iff in Hf as [Hm Hg].
    destruct (forecaster_ w) as [g |] eqn:Eg; [| discriminate].
    destruct (residuals_matrix_ w) as [old |] eqn:Eo; [| discriminate].
    cbn [getattr].
    destruct (est_update g y X update_params) as [g' |].
    + cbn [residuals_matrix_ set_forecaster_]. rewrite Eo. cbn [getattr].
      destruct (max_lt _ _).
      * destruct (_compute_sliding_residuals _ _ _ _ _ _ _ _ _ _ _ _)
          as [wsb [rm |]]; cbn; unfold fitted_early; cbn; rewrite He;
          rewrite ?Eo; auto 10.
      * cbn. unfold fitted_early. cbn. rewrite He, Eo. auto 10.
    + cbn. unfold fitted_early. rewrite He, Eg, Eo. auto 10.
Qed.


End MatrixInvariants.

(** ** The window parser and the constructor, continued *)




(** ** The build and the update on concrete inputs *)

Lemma matrix_shape_witness :
  exists rm n,
    naive_compute (naive_wrapper "empirical" (WFloat (1 # 2)) (Some (1 # 2)%Q))
      3%nat (ramp 20) None (mkNaive None None) (WFloat (1 # 2))
      (Some (1 # 2)%Q) false = ([], Ok rm)
    /\ _parse_initial_window (ramp 20) (WFloat (1 # 2)) = Ok n
    /\ df_index rm = series_index (iloc_from (ramp 20) n)
    /\ df_columns rm = series_index (iloc_from (ramp 20) n)
    /\ rectangular rm.
Proof.
  eassert (Hc : naive_compute
                  (naive_wrapper "empirical" (WFloat (1 # 2)) (Some (1 # 2)%Q))
                  3%nat (ramp 20) None (mkNaive None None) (WFloat (1 # 2))
                  (Some (1 # 2)%Q) false = ([], Ok _))
    by (vm_compute; reflexivity).
  destruct (@matrix_shape naive naive_clone naive_fit naive_predict_residuals
              nat rot_sample
              (naive_wrapper "empirical" (WFloat (1 # 2)) (Some (1 # 2)%Q))
              3%nat (ramp 20) None (mkNaive None None) (WFloat (1 # 2))
              (Some (1 # 2)%Q) false [] _
              (fun r frac ix s => @rot_sample_sub r frac ix s) Hc)
    as (n & H).
  eexists. exists n. split; [exact Hc | exact H].
Defined.

Lemma fresh_matrix_rows_witness :
  exists rm anchors,
    naive_compute (naive_wrapper "empirical" WNone (Some (1 # 2)%Q))
      3%nat (ramp 20) None (mkNaive None None) WNone (Some (1 # 2)%Q) false
    = ([], Ok rm)
    /\ ((truthy (Some (1 # 2)%Q) = false
         /\ anchors = series_index (iloc_from (ramp 20) 10))
        \/ (exists frac,
              Some (1 # 2)%Q = Some frac /\ truthy (Some (1 # 2)%Q) = true
              /\ rot_sample 3 frac (series_index (iloc_from (ramp 20) 10))
                 = Ok anchors))
    /\ forall id,
         In id (series_index (iloc_from (ramp 20) 10)) ->
         if mem id anchors
         then exists s,
                _get_residuals_matrix_row naive_fit naive_predict_residuals
                  (naive_clone (mkNaive None None)) (ramp 20) None id
                = ([], Ok s)
                /\ df_row rm id
                   = Some (align_row (series_index (iloc_from (ramp 20) 10)) s)
         else df_row rm id
              = Some (map (fun _ => NaN)
                          (series_index (iloc_from (ramp 20) 10))).
Proof.
  eassert (Hc : naive_compute
                  (naive_wrapper "empirical" WNone (Some (1 # 2)%Q))
                  3%nat (ramp 20) None (mkNaive None None) WNone
                  (Some (1 # 2)%Q) false = ([], Ok _))
    by (vm_compute; reflexivity).
  assert (Hn : _parse_initial_window (ramp 20) WNone = Ok 10)
    by (vm_compute; reflexivity).
  destruct (@fresh_matrix_rows naive naive_clone naive_fit
              naive_predict_residuals nat rot_sample
              (naive_wrapper "empirical" WNone (Some (1 # 2)%Q))
              3%nat (ramp 20) None (mkNaive None None) WNone
              (Some (1 # 2)%Q) [] _ 10 Hc Hn) as (anchors & H).
  eexists. exists anchors. split; [exact Hc | exact H].
Defined.

Lemma successful_build_is_silent_witness :
  fst (naive_compute (naive_wrapper "empirical" WNone None) 0%nat (squares 20)
         None (mkNaive (Some 12%nat) None) WNone None false) = [].
Proof.
  eapply (@successful_build_is_silent naive naive_clone naive_fit
            naive_predict_residuals nat rot_sample
            (naive_wrapper "empirical" WNone None) 0%nat (squares 20)
            None (mkNaive (Some 12%nat) None) WNone None false).
  vm_compute. reflexivity.
Defined.

Lemma update_preserves_cells_witness :
  exists old new,
    residuals_matrix_ fitted_ramp15 = Some old
    /\ residuals_matrix_
         (fst (naive_update_wrapper fitted_ramp15 0%nat (ramp 20) None true))
       = Some new
    /\ incl (df_index old) (df_index new)
    /\ forall r c, In r (df_index old) -> In c (df_columns old) ->
                   df_at new r c = df_at old r c.
Proof.
  do 2 eexists.
  split; [vm_compute; reflexivity |].
  split; [vm_compute; reflexivity |].
  eapply (@update_preserves_cells naive naive_clone naive_fit
            naive_predict_residuals naive_update nat rot_sample
            fitted_ramp15 _ 0%nat (ramp 20) None true []).
  - intros r frac ix s. apply rot_sample_sub.
  - vm_compute. reflexivity.
  - vm_compute. reflexivity.
  - vm_compute. reflexivity.
Defined.

Lemma late_horizon_same_intervals_witness :
  naive_predict_interval
    (fst (_fit naive_clone naive_fit naive_predict_residuals rot_sample
            (holding_squares "conformal") 5%nat (squares 20) None None))
    0%nat (Relative [1; 2]) None [(4 # 5)%Q]
  = naive_predict_interval
      (fst (_fit naive_clone naive_fit naive_predict_residuals rot_sample
              (holding_squares "conformal") 0%nat (squares 20) None
              (Some (Relative [1]))))
      9%nat (Relative [1; 2]) None [(4 # 5)%Q].
Proof.
  eapply (@late_horizon_same_intervals naive naive_clone naive_fit
            naive_predict_residuals naive_predict nat rot_sample
            (holding_squares "conformal") _ 0%nat 5%nat 9%nat (squares 20)
            None None (Relative [1]) (Relative [1; 2]) [(4 # 5)%Q] []).
  - reflexivity.
  - reflexivity.
  - reflexivity.
  - vm_compute. reflexivity.
Defined.

Lemma fitted_state_kept_witness :
  fitted_early
    (fst (naive_update_wrapper fitted_ramp15 0%nat
            (get_slice (ramp 40) (Some 20) None) None true)) = true
  /\ snd (snd (naive_update_wrapper fitted_ramp15 0%nat
                 (get_slice (ramp 40) (Some 20) None) None true))
     = Raise KeyError
  /\ method
       (fst (naive_update_wrapper fitted_ramp15 0%nat
               (get_slice (ramp 40) (Some 20) None) None true))
     = method fitted_ramp15.
Proof.
  destruct (@fitted_state_kept naive naive_clone naive_fit
              naive_predict_residuals naive_update nat rot_sample
              fitted_ramp15 _ 0%nat (get_slice (ramp 40) (Some 20) None) None
              (Relative [1]) true []
              (or_intror (conj eq_refl eq_refl)))
    as (H1 & _ & H2 & _).
  split; [exact H1 |]. split; [vm_compute; reflexivity | exact H2].
Defined.




(** * Test scenarios *)


(** X18: the simple scenario list leaves no forecaster without a test:
    whatever its tags, a forecaster has an applicable scenario in
    [forecasting_scenarios_simple]. *)
Theorem simple_scenarios_cover (c : bool) (scitype : string)
  (requires_fh : bool) :
  exists sc, In sc forecasting_scenarios_simple
             /\ is_applicable sc (Forecaster c scitype requires_fh) = Ok true.
Proof.
  destruct (scitype =? "multivariate")%string eqn:Em.
  - exists ForecasterFitPredictMultivariateWithX. split; [simpl; auto |].
    apply String.eqb_eq in Em. subst. reflexivity.
  - exists ForecasterFitPredictUnivariateNoX. split; [simpl; auto |].
    unfold is_applicable. cbn [univariate_y fh_passed_in_fit
                               ForecasterFitPredictUnivariateNoX andb negb].
    rewrite Em. reflexivity.
Qed.

(** X19: a [ConformalIntervals] instance is tested on the univariate
    scenarios only, and on the scenario that passes the horizon late only
    when the wrapped forecaster does not require it in [fit]: of the nine
    extended scenarios seven apply, or six. *)
Theorem conformal_scenarios (wrapped_requires_fh : bool) (sc : Scenario) :
  is_applicable sc (conformal_test_object wrapped_requires_fh)
  = Ok (univariate_y sc && (fh_passed_in_fit sc || negb wrapped_requires_fh))
  /\ length (filter (fun s =>
                       match is_applicable s
                               (conformal_test_object wrapped_requires_fh) with
                       | Ok b => b
                       | Raise _ => false
                       end)
                    forecasting_scenarios_extended)
     = if wrapped_requires_fh then 6%nat else 7%nat.
Proof.
  split.
  - unfold is_applicable, conformal_test_object.
    cbn [String.eqb Ascii.eqb Bool.eqb].
    destruct (univariate_y sc); destruct (fh_passed_in_fit sc);
      destruct wrapped_requires_fh; reflexivity.
  - destruct wrapped_requires_fh; reflexivity.
Qed.

(** * The anchors of a sampled build *)

Lemma bind_lift_Ok {A B} (a : A) (k : A -> M B) : bind (lift (Ok a)) k = k a.
Proof.
  unfold bind, lift. destruct (k a). reflexivity.
Qed.

Lemma bind_ret {A B} (a : A) (k : A -> M B) : bind (ret a) k = k a.
Proof.
  unfold bind, ret. destruct (k a). reflexivity.
Qed.

Lemma run_tasks_all_ok {I A} (d : A) (t : I -> M A) (ids : list I) :
  (forall id, In id ids -> exists a, t id = ([], Ok a)) ->
  run_tasks (map t ids) = ([], Ok (map (fun id => task_value d (t id)) ids)).
Proof.
  induction ids as [| id ids IH]; simpl; intro Hall; [reflexivity |].
  destruct (Hall id (or_introl eq_refl)) as [a Ha].
  rewrite IH by (intros; apply Hall; right; assumption).
  unfold task_value at 1. rewrite Ha. reflexivity.
Qed.

Lemma combine_map_r {I A} (f : I -> A) (ids : list I) :
  combine ids (map f ids) = map (fun id => (id, f id)) ids.
Proof.
  induction ids as [| id ids IH]; simpl; [reflexivity | now rewrite IH].
Qed.

Section SampledAnchors.

Variable estimator : Type.
Variable clone : estimator -> estimator.
Variable est_fit :
  estimator -> Series -> Exog -> option ForecastingHorizon -> result estimator.
Variable est_predict_residuals :
  estimator -> Series -> Exog -> result Series.
Variable RandomState : Type.
Variable pd_sample : RandomState -> Q -> Index -> result Index.

Local Abbreviation compute :=
  (_compute_sliding_residuals clone est_fit est_predict_residuals pd_sample).
Local Abbreviation matrix_row :=
  (_get_residuals_matrix_row est_fit est_predict_residuals).

(** X20: rows are keyed by anchor, so a sampled build depends on which
    anchors were drawn and not on the order of the draw: two random states
    that draw the same labels (without repetition, among the labels past the
    window) in different orders give the same matrix. *)
Theorem sampled_build_order_irrelevant (self : Wrapper estimator)
  (rng1 rng2 : RandomState) (y : Series) (X : Exog) (f : estimator)
  (iw : window_spec) (frac : Q) (n : Z) (anchors1 anchors2 : Index)
  (ws : list warning) (rm : DataFrame) :
  truthy (Some frac) = true ->
  _parse_initial_window y iw = Ok n ->
  pd_sample rng1 frac (series_index (iloc_from y n)) = Ok anchors1 ->
  pd_sample rng2 frac (series_index (iloc_from y n)) = Ok anchors2 ->
  Permutation anchors1 anchors2 ->
  NoDup anchors1 ->
  incl anchors1 (series_index (iloc_from y n)) ->
  compute self rng1 y X f iw (Some frac) false = (ws, Ok rm) ->
  compute self rng2 y X f iw (Some frac) false = (ws, Ok rm).
Proof.
  intros Ht Hn Hs1 Hs2 Hperm Hnd Hincl Hc.
  set (yi := series_index (iloc_from y n)) in *.
  set (t := fun id => matrix_row (clone f) y X id).
  assert (Hstep : forall rng anchors,
             pd_sample rng frac yi = Ok anchors ->
             compute self rng y X f iw (Some frac) false
             = bind (Parallel (n_jobs self) (map t anchors))
                    (fun rows => ret (write_rows (empty_frame yi yi) anchors
                                        rows))).
  { intros rng anchors Hs. unfold _compute_sliding_residuals.
    rewrite Hn, bind_lift_Ok. cbn [fst snd]. rewrite bind_ret.
    cbn [fst snd]. rewrite Ht. fold yi. rewrite Hs, bind_lift_Ok.
    reflexivity. }
  rewrite (Hstep _ _ Hs1) in Hc. rewrite (Hstep _ _ Hs2).
  apply bind_ok in Hc as (w1 & rows1 & w2 & Hpar & Hret & ->).
  injection Hret as <- <-.
  assert (Hjobs : forall tasks : list (M Series),
             Parallel (n_jobs self) tasks = run_tasks tasks).
  { intro tasks. unfold Parallel in *.
    destruct (n_jobs self) as [[| p | p] |]; try reflexivity. discriminate. }
  rewrite Hjobs in Hpar. rewrite Hjobs.
  destruct (run_tasks_inv _ Hpar) as [HF Hsil].
  assert (Hw1 : w1 = []).
  { apply Hsil. intros t0 w r Hin Ht0.
    apply in_map_iff in Hin as (id & <- & _).
    unfold t in Ht0. eapply matrix_row_ok. exact Ht0. }
  subst w1.
  assert (Hall : forall id, In id anchors1 -> exists s, t id = ([], Ok s)).
  { apply Forall2_map_l in HF.
    destruct (Forall2_combine_In HF) as [Hlen Hpairs].
    intros id Hid.
    assert (Hin : In id (map fst (combine anchors1 rows1)))
      by (rewrite map_fst_combine; assumption).
    apply in_map_iff in Hin as ([a s] & <- & Hin).
    destruct (Hpairs _ Hin) as [w Hw]. simpl in Hw |- *.
    exists s. rewrite Hw. f_equal.
    unfold t in Hw. eapply matrix_row_ok. exact Hw. }
  assert (E1 : ([] : list warning, Ok rows1)
               = ([], Ok (map (fun id => task_value [] (t id)) anchors1))).
  { rewrite <- Hpar. exact (run_tasks_all_ok [] t anchors1 Hall). }
  injection E1 as ->.
  assert (E2 : run_tasks (map t anchors2)
               = ([], Ok (map (fun id => task_value [] (t id)) anchors2))).
  { apply run_tasks_all_ok. intros id Hid. apply Hall.
    eapply Permutation_in; [apply Permutation_sym; exact Hperm | exact Hid]. }
  unfold t in *. rewrite E2.
  unfold bind, ret. cbn [app]. do 2 f_equal.
  unfold write_rows. rewrite !combine_map_r.
  symmetry. apply write_order_irrelevant.
  - apply Permutation_map. exact Hperm.
  - rewrite map_map. simpl. rewrite map_id. exact Hnd.
  - intros ir Hir. apply in_map_iff in Hir as (id & <- & Hid).
    simpl. apply mem_In, Hincl, Hid.
Qed.

End SampledAnchors.

Lemma sampled_build_order_irrelevant_witness :
  naive_compute (naive_wrapper "empirical" WNone (Some 1%Q)) 3%nat (ramp 20)
    None (mkNaive None None) WNone (Some 1%Q) false
  = naive_compute (naive_wrapper "empirical" WNone (Some 1%Q)) 0%nat (ramp 20)
      None (mkNaive None None) WNone (Some 1%Q) false.
Proof.
  eassert (Hc : naive_compute (naive_wrapper "empirical" WNone (Some 1%Q))
                  0%nat (ramp 20) None (mkNaive None None) WNone (Some 1%Q)
                  false = ([], Ok _))
    by (vm_compute; reflexivity).
  rewrite Hc.
  eapply (@sampled_build_order_irrelevant naive naive_clone naive_fit
            naive_predict_residuals nat rot_sample
            (naive_wrapper "empirical" WNone (Some 1%Q)) 0%nat 3%nat (ramp 20)
            None (mkNaive None None) WNone 1%Q 10
            ([10; 11; 12] ++ [13; 14; 15; 16; 17; 18; 19])
            ([13; 14; 15; 16; 17; 18; 19] ++ [10; 11; 12])).
  - reflexivity.
  - vm_compute. reflexivity.
  - vm_compute. reflexivity.
  - vm_compute. reflexivity.
  - apply Permutation_app_comm.
  - repeat (constructor; [simpl; lia |]). constructor.
  - vm_compute. intros x Hx. exact Hx.
  - exact Hc.
Defined.
